(** * ceph-medic: the collector (ceph_medic/collector.py)

    A shallow embedding of [collect_paths] and [collect], the two functions
    that gather the metadata of every node of a cluster, and the properties
    of the collection run that the specification states about them.

    Python dicts are finite maps ([gmap]); the dicts that are iterated
    ([paths], the inventory) are association lists in their iteration order.
    Remote calls, terminal output and the global [metadata] dict are effects:
    a computation emits the calls and lines it makes, in order, and either
    returns a value or raises. *)

From stdpp Require Import gmap strings list fin_maps.

Open Scope string_scope.
Open Scope list_scope.

(** ** Exceptions and results *)

(** The exceptions that can leave [collect]. [HostNotFound] is not among
    them: it is caught where it is raised, see [get_connection] below. *)
Inductive Exn :=
  | RemoteCallError (msg : string)   (* a call on an open connection failed *)
  | KeyError (key : string)          (* [d[k]] on a dict without the key [k] *)
  | RuntimeError (msg : string).

Inductive Result (A : Type) :=
  | Ok (a : A)
  | Raise (e : Exn).
Arguments Ok {A} a.
Arguments Raise {A} e.

Definition is_Ok {A} (r : Result A) : bool :=
  match r with Ok _ => true | Raise _ => false end.

(** ** The remote side: [conn.remote_module], [remote.commands] *)

(** What [stat_path] returns: the fields of a remote [os.stat] with the names
    of owner and group, the captured contents and the capture exception (the
    timestamps, which are floats, are left out). *)
Record StatRecord := {
  owner : string;
  group : string;
  st_mode : Z;
  st_uid : Z;
  st_gid : Z;
  st_size : Z;
  st_ino : Z;
  st_dev : Z;
  st_nlink : Z;
  contents : option string;
  exception : option string;
}.

(** What [path_tree] returns: [tree['files']] and [tree['dirs']]. *)
Record Tree := {
  tree_files : list string;
  tree_dirs : list string;
}.

(** An open connection, as the collector uses it: each remote function is a
    request that answers or fails. *)
Record Conn := {
  import_module : Result unit;
  path_tree : string → option (list string) → option (list string) → bool → Result Tree;
  stat_path : string → option (list string) → option (list string) → bool → Result StatRecord;
  ceph_version : Result string;
  ceph_is_installed : Result bool;
}.

(** The requests sent over a connection, with their arguments. *)
Inductive RemoteOp :=
  | ImportModule
  | PathTreeCall (path : string) (skip_dirs skip_files : option (list string)) (get_contents : bool)
  | StatPathCall (path : string) (skip_dirs skip_files : option (list string)) (get_contents : bool)
  | CephVersion
  | CephIsInstalled
  | Exit.

(** ** Computations over one connection *)

(** The requests made, in order, and what came of them. *)
Record Remote (A : Type) := {
  calls : list RemoteOp;
  answer : Result A;
}.
Arguments calls {A} _.
Arguments answer {A} _.

Module Remote.

Definition ret {A} (a : A) : Remote A := {| calls := []; answer := Ok a |}.

Definition bind {A B} (m : Remote A) (f : A → Remote B) : Remote B :=
  match answer m with
  | Ok a => {| calls := calls m ++ calls (f a); answer := answer (f a) |}
  | Raise e => {| calls := calls m; answer := Raise e |}
  end.

(** One request: it is recorded whether it answers or fails. *)
Definition call {A} (op : RemoteOp) (r : Result A) : Remote A :=
  {| calls := [op]; answer := r |}.

(** [for x in l: acc = body(acc, x)] *)
Fixpoint for_each {A B} (body : B → A → Remote B) (l : list A) (acc : B) : Remote B :=
  match l with
  | [] => ret acc
  | x :: l' => bind (body acc x) (for_each body l')
  end.

End Remote.

#[global] Instance Remote_ret : MRet Remote := @Remote.ret.
#[global] Instance Remote_bind : MBind Remote := λ A B f m, Remote.bind m f.

(** ** [collect_paths] *)

(** The rules of one path of interest: the value [kw] of the [paths] dict.
    [kw.get('skip_files')] and [kw.get('skip_dirs')] are [None] where the key
    is not given; every entry gives [get_contents]. *)
Record Rules := {
  get_contents : bool;
  skip_files : option (list string);
  skip_dirs : option (list string);
}.

Definition paths : list (string * Rules) := [
  ("/etc/ceph", {| get_contents := true; skip_files := None; skip_dirs := None |});
  ("/var/lib/ceph", {| get_contents := true;
                       skip_files := Some ["activate.monmap"; "superblock"];
                       skip_dirs := Some ["current"; "store.db"] |});
  ("/var/run/ceph", {| get_contents := false; skip_files := None; skip_dirs := None |})
].

(** [path_metadata[p]]: [{'dirs': dirs, 'files': files}]. *)
Record PathTree := {
  dirs : gmap string StatRecord;
  files : gmap string StatRecord;
}.

Section collect_paths.

Variable conn : Conn.

Definition remote_path_tree (p : string) (sd sf : option (list string)) (gc : bool) : Remote Tree :=
  Remote.call (PathTreeCall p sd sf gc) (path_tree conn p sd sf gc).

Definition remote_stat_path (p : string) (sd sf : option (list string)) (gc : bool) : Remote StatRecord :=
  Remote.call (StatPathCall p sd sf gc) (stat_path conn p sd sf gc).

(** [for i in tree['files']: files[i] = stat_path(i, None, None, kw.get('get_contents'))] *)
Definition stat_files (kw : Rules) (files : gmap string StatRecord) (i : string)
  : Remote (gmap string StatRecord) :=
  r ← remote_stat_path i None None (get_contents kw);
  mret (<[i := r]> files).

(** The body of [for i in tree['dirs']]: the directory is recorded under
    its own path, then under the root [p], both from a stat of [i]. *)
Definition stat_dirs (p : string) (dirs : gmap string StatRecord) (i : string)
  : Remote (gmap string StatRecord) :=
  r ← remote_stat_path i None None false;
  let dirs := <[i := r]> dirs in
  r' ← remote_stat_path i None None false;
  mret (<[p := r']> dirs).

(** The body of [for p, kw in paths.items()]. *)
Definition collect_root (path_metadata : gmap string PathTree) (entry : string * Rules)
  : Remote (gmap string PathTree) :=
  let '(p, kw) := entry in
  tree ← remote_path_tree p (skip_dirs kw) (skip_files kw) (get_contents kw);
  files ← Remote.for_each (stat_files kw) (tree_files tree) ∅;
  dirs ← Remote.for_each (stat_dirs p) (tree_dirs tree) ∅;
  mret (<[p := {| dirs := dirs; files := files |}]> path_metadata).

Definition collect_paths : Remote (gmap string PathTree) :=
  Remote.for_each collect_root paths ∅.

End collect_paths.

(** ** The collector's state and output *)

(** [node_metadata]: what is known of one node once it is collected. *)
Record CephInfo := {
  version : string;
  installed : bool;
}.

Record NodeMetadata := {
  nm_ceph : CephInfo;                      (* node_metadata['ceph'] *)
  nm_paths : gmap string PathTree;         (* node_metadata['paths'] *)
  nm_network : gmap string string;         (* node_metadata['network'] *)
  nm_devices : gmap string string;         (* node_metadata['devices'] *)
}.

(** A node of the inventory: a dict read at ['host'] only. *)
Record Node := {
  host : string;
}.

(** The module-wide [ceph_medic.metadata] dict. Its key ['nodes'] holds the
    inventory, from node type to the nodes of that type; every other key
    holds the collected nodes of one type, by host. The two are kept apart:
    [roles] stands for the keys other than ['nodes'], and a node type of the
    inventory is taken to differ from ['nodes'] (storing a node of that type
    would write into the inventory that is being iterated). *)
Record Metadata := {
  nodes : list (string * list Node);
  roles : gmap string (gmap string NodeMetadata);
}.

(** [terminal.yellow], [terminal.green], [terminal.red] *)
Inductive Colour := yellow | green | red.

(** A piece of text, as it is or wrapped by one of the colour functions. *)
Inductive Text :=
  | Str (s : string)
  | Col (c : Colour) (s : string).

(** The lines given to [loader.write], by format string. *)
Inductive Line :=
  | Raw (parts : list Text)
  | HostConnection (hostname : string) (status : Text)   (* 'Host: %-20s  connection: [%-20s]' *)
  | HostCollecting (hostname : string) (what : Text).     (* 'Host: %-*s  collecting: [%s]' *)

Inductive LogLevel := Debug | Exception.

(** What a run of the collector does that can be seen from outside. *)
Inductive Event :=
  | Write (l : Line)                                   (* loader.write *)
  | Log (level : LogLevel) (msg : string)              (* logger.debug, logger.exception *)
  | GetConnection (hostname : string) (found : bool)   (* get_connection, and whether it returned *)
  | RemoteCall (hostname : string) (op : RemoteOp).    (* a request on the connection to the host *)

(** What a run leaves behind. *)
Record Run (A : Type) := {
  output : list Event;
  outcome : Result A;
  store : Metadata;
}.
Arguments output {A} _.
Arguments outcome {A} _.
Arguments store {A} _.

Definition Collector (A : Type) : Type := Metadata → Run A.

Module Collector.

Definition ret {A} (a : A) : Collector A :=
  λ md, {| output := []; outcome := Ok a; store := md |}.

Definition bind {A B} (m : Collector A) (f : A → Collector B) : Collector B :=
  λ md,
    let r := m md in
    match outcome r with
    | Ok a =>
        let r' := f a (store r) in
        {| output := output r ++ output r'; outcome := outcome r'; store := store r' |}
    | Raise e => {| output := output r; outcome := Raise e; store := store r |}
    end.

Definition raise {A} (e : Exn) : Collector A :=
  λ md, {| output := []; outcome := Raise e; store := md |}.

Definition emit (ev : Event) : Collector unit :=
  λ md, {| output := [ev]; outcome := Ok tt; store := md |}.

(** [metadata['nodes']] *)
Definition cluster_nodes : Collector (list (string * list Node)) :=
  λ md, {| output := []; outcome := Ok (nodes md); store := md |}.

(** [metadata[node_type][hostname] = node_metadata]: the dict of the node
    type is looked up, which raises where there is none, and updated in
    place. The node type is one of the keys that [roles] stands for: with
    the node type ['nodes'] the code would write into the inventory, which
    is not modelled. *)
Definition setitem (node_type hostname : string) (node_metadata : NodeMetadata) : Collector unit :=
  λ md,
    match roles md !! node_type with
    | Some d =>
        {| output := []; outcome := Ok tt;
           store := {| nodes := nodes md;
                       roles := <[node_type := <[hostname := node_metadata]> d]> (roles md) |} |}
    | None => raise (KeyError node_type) md
    end.

(** Requests on the connection to [hostname]: they leave the store alone. *)
Definition remote {A} (hostname : string) (m : Remote A) : Collector A :=
  λ md, {| output := RemoteCall hostname <$> calls m; outcome := answer m; store := md |}.

(** [for x in l: acc = body(acc, x)] *)
Fixpoint for_each {A B} (body : B → A → Collector B) (l : list A) (acc : B) : Collector B :=
  match l with
  | [] => ret acc
  | x :: l' => bind (body acc x) (for_each body l')
  end.

End Collector.

#[global] Instance Collector_ret : MRet Collector := @Collector.ret.
#[global] Instance Collector_bind : MBind Collector := λ A B f m, Collector.bind m f.

Definition write (l : Line) : Collector unit := Collector.emit (Write l).
Definition logger (level : LogLevel) (msg : string) : Collector unit := Collector.emit (Log level msg).

(** [' ' * n] *)
Definition spaces (n : nat) : string := String.concat "" (replicate n " ").

Definition newline : string := String (Ascii.ascii_of_nat 10) "".

(** ** [collect] *)

Definition collect_network (cluster_nodes : list (string * list Node)) : gmap string string := ∅.

Definition collect_devices : gmap string string := ∅.

(** The counters of [collect]. *)
Record Counters := {
  total_nodes : nat;
  failed_nodes : nat;
}.

Definition all_failed_msg : string := "All nodes failed to connect. Cannot run any checks".

Section collect.

(** [get_connection] either returns a connection to the host or raises
    [HostNotFound] ([None]). *)
Variable get_connection : string → option Conn.

(** The body of [for node in nodes]. *)
Definition collect_node (cluster_nodes : list (string * list Node)) (node_type : string)
    (cnt : Counters) (node : Node) : Collector Counters :=
  let total_nodes := total_nodes cnt + 1 in
  let hostname := host node in
  write (HostConnection hostname (Col yellow "connecting"));;
  (* try: *)
  logger Debug ("attempting connection to host: " +:+ host node);;
  match get_connection (host node) with
  | None =>
      (* except HostNotFound: *)
      Collector.emit (GetConnection (host node) false);;
      logger Exception "connection failed";;
      write (HostConnection hostname (Col red "failed"));;
      write (Raw [Str newline]);;
      (* continue *)
      mret {| total_nodes := total_nodes; failed_nodes := failed_nodes cnt + 1 |}
  | Some conn =>
      Collector.emit (GetConnection (host node) true);;
      write (HostConnection hostname (Col green "connected"));;
      write (Raw [Str newline]);;
      Collector.remote hostname (Remote.call ImportModule (import_module conn));;
      write (HostCollecting hostname (Col yellow "paths"));;
      paths ← Collector.remote hostname (collect_paths conn);
      write (HostCollecting hostname (Col green "paths"));;
      write (HostCollecting hostname (Col yellow "network"));;
      let network := collect_network cluster_nodes in
      write (HostCollecting hostname (Col green "network"));;
      write (HostCollecting hostname (Col yellow "devices"));;
      let devices := collect_devices in
      write (HostCollecting hostname (Col green "paths"));;
      version ← Collector.remote hostname (Remote.call CephVersion (ceph_version conn));
      write (HostCollecting hostname (Col green "paths"));;
      installed ← Collector.remote hostname (Remote.call CephIsInstalled (ceph_is_installed conn));
      write (HostCollecting hostname (Col green "paths"));;
      let node_metadata :=
        {| nm_ceph := {| version := version; installed := installed |};
           nm_paths := paths; nm_network := network; nm_devices := devices |} in
      Collector.setitem node_type (host node) node_metadata;;
      Collector.remote hostname (Remote.call Exit (Ok tt));;
      mret {| total_nodes := total_nodes; failed_nodes := failed_nodes cnt |}
  end.

(** The body of [for node_type, nodes in cluster_nodes.items()]. *)
Definition collect_nodes (cluster_nodes : list (string * list Node))
    (cnt : Counters) (group : string * list Node) : Collector Counters :=
  let '(node_type, nodes) := group in
  Collector.for_each (collect_node cluster_nodes node_type) nodes cnt.

Definition collect : Collector unit :=
  cluster_nodes ← Collector.cluster_nodes;
  write (Raw [Str "collecting remote node information"]);;
  cnt ← Collector.for_each (collect_nodes cluster_nodes) cluster_nodes
          {| total_nodes := 0; failed_nodes := 0 |};
  if decide (failed_nodes cnt = total_nodes cnt) then
    write (Raw [Col red "Collection failed!"; Str (spaces 70 +:+ newline)]);;
    Collector.raise (RuntimeError all_failed_msg)
  else
    write (Raw [Str ("Collection completed!" +:+ spaces 70 +:+ newline)]).

End collect.

(** ** The stat collector, and remote peers to run the collector against *)

Inductive EntryKind := RegularFile | Directory.

(** An entry of a remote filesystem: its kind, what [os.stat] says of it, and
    what reading it gives: the bytes, or the error of the read. *)
Record RemoteEntry := {
  entry_kind : EntryKind;
  entry_stat : StatRecord;
  entry_read : string + string;
}.

Definition captured (r : StatRecord) (c e : option string) : StatRecord :=
  {| owner := owner r; group := group r; st_mode := st_mode r; st_uid := st_uid r;
     st_gid := st_gid r; st_size := st_size r; st_ino := st_ino r; st_dev := st_dev r;
     st_nlink := st_nlink r; contents := c; exception := e |}.

(** Modelled from the spec: [stat_path] of [remote.functions], which is not
    among the sources. The stat record is always retrieved; the contents are
    read only when capture is asked for and the path is a regular file, and a
    read that fails leaves the capture exception in place of the contents. A
    path that cannot be statted fails the call. *)
Definition spec_stat_path (fs : string → option RemoteEntry)
    (path : string) (sd sf : option (list string)) (capture : bool) : Result StatRecord :=
  match fs path with
  | None => Raise (RemoteCallError ("stat_path: " +:+ path))
  | Some e =>
      match capture, entry_kind e with
      | true, RegularFile =>
          match entry_read e with
          | inl data => Ok (captured (entry_stat e) (Some data) None)
          | inr err => Ok (captured (entry_stat e) None (Some err))
          end
      | _, _ => Ok (captured (entry_stat e) None None)
      end
  end.

(** A peer given by its filesystem and by what its walker answers. *)
Definition peer (fs : string → option RemoteEntry)
    (walk : string → Result Tree) : Conn :=
  {| import_module := Ok tt;
     path_tree := λ p _ _ _, walk p;
     stat_path := spec_stat_path fs;
     ceph_version := Ok "12.0.1";
     ceph_is_installed := Ok true |}.

Definition plain_stat (mode ino : Z) : StatRecord :=
  {| owner := "ceph"; group := "ceph"; st_mode := mode; st_uid := 167; st_gid := 167;
     st_size := 650; st_ino := ino; st_dev := 64768; st_nlink := 1;
     contents := None; exception := None |}.

(** A small filesystem: [/etc/ceph] with a directory and two files, one of
    them unreadable, and a socket file under [/var/run/ceph]. *)
Definition sample_fs (path : string) : option RemoteEntry :=
  if decide (path = "/etc/ceph") then
    Some {| entry_kind := Directory; entry_stat := plain_stat 16877 100;
            entry_read := inr "IsADirectoryError" |}
  else if decide (path = "/etc/ceph/ceph.d") then
    Some {| entry_kind := Directory; entry_stat := plain_stat 16877 101;
            entry_read := inr "IsADirectoryError" |}
  else if decide (path = "/etc/ceph/ceph.conf") then
    Some {| entry_kind := RegularFile; entry_stat := plain_stat 33188 102;
            entry_read := inl "[global]" |}
  else if decide (path = "/etc/ceph/ceph.client.admin.keyring") then
    Some {| entry_kind := RegularFile; entry_stat := plain_stat 33152 103;
            entry_read := inr "PermissionError" |}
  else if decide (path = "/var/run/ceph/ceph-mon.asok") then
    Some {| entry_kind := RegularFile; entry_stat := plain_stat 49645 104;
            entry_read := inl "socket" |}
  else None.

Definition sample_walk (p : string) : Result Tree :=
  if decide (p = "/etc/ceph") then
    Ok {| tree_files := ["/etc/ceph/ceph.conf"; "/etc/ceph/ceph.client.admin.keyring"];
          tree_dirs := ["/etc/ceph/ceph.d"] |}
  else if decide (p = "/var/run/ceph") then
    Ok {| tree_files := ["/var/run/ceph/ceph-mon.asok"]; tree_dirs := [] |}
  else Ok {| tree_files := []; tree_dirs := [] |}.

(** A healthy peer, a peer without anything under the paths of interest, and
    a peer whose walker fails. *)
Definition sample_peer : Conn := peer sample_fs sample_walk.

Definition bare_peer : Conn :=
  peer sample_fs (λ _, Ok {| tree_files := []; tree_dirs := [] |}).

Definition broken_peer : Conn :=
  peer sample_fs (λ p, Raise (RemoteCallError ("path_tree: " +:+ p))).

(** A cluster where [mon0] and [osd0] answer, [mon1] is not found and
    [osd1] connects but cannot be walked. *)
Definition sample_connection (hostname : string) : option Conn :=
  if decide (hostname = "mon0") then Some sample_peer
  else if decide (hostname = "osd0") then Some bare_peer
  else if decide (hostname = "osd1") then Some broken_peer
  else None.

Definition empty_roles : gmap string (gmap string NodeMetadata) :=
  <["mons" := ∅]> (<["osds" := ∅]> ∅).

Definition inventory (groups : list (string * list Node)) : Metadata :=
  {| nodes := groups; roles := empty_roles |}.

(** Two monitors, the second of which is not found. *)
Definition two_mons : Metadata :=
  inventory [("mons", [{| host := "mon0" |}; {| host := "mon1" |}])].

(** A monitor that answers, then an OSD node that cannot be walked, then an
    OSD node that answers. *)
Definition broken_osd : Metadata :=
  inventory [("mons", [{| host := "mon0" |}]);
             ("osds", [{| host := "osd1" |}; {| host := "osd0" |}])].

(** Monitors that are not found. *)
Definition lost_mons : Metadata :=
  inventory [("mons", [{| host := "mon1" |}; {| host := "mon2" |}])].

(** Node types without nodes. *)
Definition no_nodes : Metadata :=
  inventory [("mons", []); ("osds", [])].


(** ** The requests [collect_paths] is expected to make *)

(** The requests for one path of interest: one walk with the rules of the
    root, then one stat per file with the capture rule of the root, then two
    stats per directory without capture. *)
Definition file_calls (kw : Rules) (tree : Tree) : list RemoteOp :=
  (λ i, StatPathCall i None None (get_contents kw)) <$> tree_files tree.

Definition dir_calls (tree : Tree) : list RemoteOp :=
  tree_dirs tree ≫= λ i, [StatPathCall i None None false; StatPathCall i None None false].

Definition walk_call (entry : string * Rules) : RemoteOp :=
  PathTreeCall entry.1 (skip_dirs entry.2) (skip_files entry.2) (get_contents entry.2).

Definition root_calls (conn : Conn) (entry : string * Rules) : list RemoteOp :=
  walk_call entry ::
  match path_tree conn entry.1 (skip_dirs entry.2) (skip_files entry.2) (get_contents entry.2) with
  | Ok tree => file_calls entry.2 tree ++ dir_calls tree
  | Raise _ => []
  end.

(** What the metadata of one root is made of. *)
Definition collected_root (conn : Conn) (entry : string * Rules) (t : PathTree) : Prop :=
  ∃ tree,
    path_tree conn entry.1 (skip_dirs entry.2) (skip_files entry.2) (get_contents entry.2) = Ok tree ∧
    answer (Remote.for_each (stat_files conn entry.2) (tree_files tree) ∅) = Ok (files t) ∧
    answer (Remote.for_each (stat_dirs conn entry.1) (tree_dirs tree) ∅) = Ok (dirs t).

Definition is_walk (op : RemoteOp) : bool :=
  match op with PathTreeCall _ _ _ _ => true | _ => false end.

(** ** What a run is expected to do *)

#[global] Instance RemoteOp_eq_dec : EqDecision RemoteOp.
Proof. solve_decision. Defined.
#[global] Instance Colour_eq_dec : EqDecision Colour.
Proof. solve_decision. Defined.
#[global] Instance Text_eq_dec : EqDecision Text.
Proof. solve_decision. Defined.
#[global] Instance Line_eq_dec : EqDecision Line.
Proof. solve_decision. Defined.
#[global] Instance LogLevel_eq_dec : EqDecision LogLevel.
Proof. solve_decision. Defined.
#[global] Instance Event_eq_dec : EqDecision Event.
Proof. solve_decision. Defined.
#[global] Instance Exn_eq_dec : EqDecision Exn.
Proof. solve_decision. Defined.

(** The nodes of the inventory in the order the two loops of [collect] meet
    them, each with its node type. *)
Definition flat_nodes (groups : list (string * list Node)) : list (string * Node) :=
  groups ≫= λ group, (λ node, (group.1, node)) <$> group.2.

(** The events up to the answer of [get_connection]. *)
Definition connecting_events (h : string) : list Event :=
  [Write (HostConnection h (Col yellow "connecting"));
   Log Debug ("attempting connection to host: " +:+ h)].

Definition connected_events (h : string) : list Event :=
  connecting_events h ++
  [GetConnection h true;
   Write (HostConnection h (Col green "connected"));
   Write (Raw [Str newline])].

Definition not_found_events (h : string) : list Event :=
  connecting_events h ++
  [GetConnection h false;
   Log Exception "connection failed";
   Write (HostConnection h (Col red "failed"));
   Write (Raw [Str newline])].

(** The events of a node whose metadata is built to the end, from the import
    of the remote functions to the last line before the node is stored. *)
Definition build_events (h : string) (conn : Conn) : list Event :=
  [RemoteCall h ImportModule;
   Write (HostCollecting h (Col yellow "paths"))] ++
  (RemoteCall h <$> calls (collect_paths conn)) ++
  [Write (HostCollecting h (Col green "paths"));
   Write (HostCollecting h (Col yellow "network"));
   Write (HostCollecting h (Col green "network"));
   Write (HostCollecting h (Col yellow "devices"));
   Write (HostCollecting h (Col green "paths"));
   RemoteCall h CephVersion;
   Write (HostCollecting h (Col green "paths"));
   RemoteCall h CephIsInstalled;
   Write (HostCollecting h (Col green "paths"))].

(** What the requests of a node add up to: its metadata, or the exception
    of the first request that fails. *)
Definition built (cluster_nodes : list (string * list Node)) (conn : Conn) : Result NodeMetadata :=
  match import_module conn with
  | Raise e => Raise e
  | Ok _ =>
    match answer (collect_paths conn) with
    | Raise e => Raise e
    | Ok paths =>
      match ceph_version conn with
      | Raise e => Raise e
      | Ok version =>
        match ceph_is_installed conn with
        | Raise e => Raise e
        | Ok installed =>
            Ok {| nm_ceph := {| version := version; installed := installed |};
                  nm_paths := paths;
                  nm_network := collect_network cluster_nodes;
                  nm_devices := collect_devices |}
        end
      end
    end
  end.

(** Whether a connection is opened and closed again before the next one is
    asked for, all along a run; [open] is the host connected to, if any. *)
Fixpoint channels_closed (open : option string) (evs : list Event) : bool :=
  match evs with
  | [] => bool_decide (open = None)
  | GetConnection h found :: evs' =>
      match open with
      | None => channels_closed (if found then Some h else None) evs'
      | Some _ => false
      end
  | RemoteCall h Exit :: evs' =>
      match open with
      | Some h' => bool_decide (h = h') && channels_closed None evs'
      | None => false
      end
  | _ :: evs' => channels_closed open evs'
  end.

(** The events that are neither the answer of [get_connection] nor the
    closing of a connection. *)
Definition quiet (ev : Event) : Prop :=
  match ev with
  | GetConnection _ _ => False
  | RemoteCall _ Exit => False
  | _ => True
  end.

Section expected.

Variable get_connection : string → option Conn.

(** A node the collector gets past: its host is not found, or its metadata
    is built to the end and there is a dict for its node type. *)
Definition node_ok (md : Metadata) (tn : string * Node) : Prop :=
  match get_connection (host tn.2) with
  | None => True
  | Some conn => is_Ok (built (nodes md) conn) ∧ is_Some (roles md !! tn.1)
  end.

#[global] Instance node_ok_dec md tn : Decision (node_ok md tn).
Proof. unfold node_ok. destruct (get_connection (host tn.2)); apply _. Defined.

(** The events of such a node. *)
Definition node_events (tn : string * Node) : list Event :=
  match get_connection (host tn.2) with
  | None => not_found_events (host tn.2)
  | Some conn =>
      connected_events (host tn.2) ++ build_events (host tn.2) conn ++
      [RemoteCall (host tn.2) Exit]
  end.

(** What such a node leaves in the dicts of the node types. *)
Definition commit_node (cluster_nodes : list (string * list Node))
    (rs : gmap string (gmap string NodeMetadata)) (tn : string * Node)
    : gmap string (gmap string NodeMetadata) :=
  match get_connection (host tn.2) with
  | None => rs
  | Some conn =>
      match built cluster_nodes conn, rs !! tn.1 with
      | Ok nm, Some d => <[tn.1 := <[host tn.2 := nm]> d]> rs
      | _, _ => rs
      end
  end.

(** The nodes of a list whose host is not found. *)
Definition failures (l : list (string * Node)) : nat :=
  length (filter (λ tn, get_connection (host tn.2) = None) l).

(** The loop of [collect] over the nodes in order. *)
Definition collect_each (cluster_nodes : list (string * list Node))
    (cnt : Counters) (tn : string * Node) : Collector Counters :=
  collect_node get_connection cluster_nodes tn.1 cnt tn.2.

End expected.

(** What the ['collecting'] lines of a run name, in order. *)
Definition collecting_lines (evs : list Event) : list Text :=
  omap (λ ev, match ev with Write (HostCollecting _ what) => Some what | _ => None end) evs.

(** The hosts [get_connection] was asked for, in order, and whether they
    were found. *)
Definition connections (evs : list Event) : list (string * bool) :=
  omap (λ ev, match ev with GetConnection h found => Some (h, found) | _ => None end) evs.

(** The first and the last line of a run. *)
Definition header : Event := Write (Raw [Str "collecting remote node information"]).

Definition failed_line : Event :=
  Write (Raw [Col red "Collection failed!"; Str (spaces 70 +:+ newline)]).

Definition completed_line : Event :=
  Write (Raw [Str ("Collection completed!" +:+ spaces 70 +:+ newline)]).

(** A run after the events [evs]. *)
Definition prepend {A} (evs : list Event) (r : Run A) : Run A :=
  {| output := evs ++ output r; outcome := outcome r; store := store r |}.

(** [store[role][host]] *)
Definition entry (md : Metadata) (role hostname : string) : option NodeMetadata :=
  roles md !! role ≫= (.!! hostname).

(** ** Answers and failures of requests *)

(** The value of an answer, if there is one. *)
Definition ok_value {A} (r : Result A) : option A :=
  match r with Ok a => Some a | Raise _ => None end.

(** The exception a request fails with on a connection, if it fails. *)
Definition failure (conn : Conn) (op : RemoteOp) : option Exn :=
  match op with
  | ImportModule =>
      match import_module conn with Raise e => Some e | Ok _ => None end
  | PathTreeCall p sd sf gc =>
      match path_tree conn p sd sf gc with Raise e => Some e | Ok _ => None end
  | StatPathCall p sd sf gc =>
      match stat_path conn p sd sf gc with Raise e => Some e | Ok _ => None end
  | CephVersion =>
      match ceph_version conn with Raise e => Some e | Ok _ => None end
  | CephIsInstalled =>
      match ceph_is_installed conn with Raise e => Some e | Ok _ => None end
  | Exit => None
  end.

(** A computation that stops at the first request that fails: when it
    returns, every request has answered; when it raises, every request but
    the last has answered and the last has failed with what is raised. *)
Definition stops_at_failure {A} (conn : Conn) (m : Remote A) : Prop :=
  match answer m with
  | Ok _ => Forall (λ op, failure conn op = None) (calls m)
  | Raise e =>
      ∃ cs op, calls m = cs ++ [op] ∧
        Forall (λ op, failure conn op = None) cs ∧ failure conn op = Some e
  end.

(** * Properties *)

(** ** Computations over one connection *)

Lemma remote_bind_ok {A B} (m : Remote A) (f : A → Remote B) a :
  answer m = Ok a →
  m ≫= f = {| calls := calls m ++ calls (f a); answer := answer (f a) |}.
Proof. unfold mbind, Remote_bind, Remote.bind. by intros ->. Qed.

Lemma remote_bind_raise {A B} (m : Remote A) (f : A → Remote B) e :
  answer m = Raise e →
  m ≫= f = {| calls := calls m; answer := Raise e |}.
Proof. unfold mbind, Remote_bind, Remote.bind. by intros ->. Qed.

Section remote_lemmas.

Context {A B : Type}.

Lemma remote_for_each_cons (body : B → A → Remote B) x l acc :
  Remote.for_each body (x :: l) acc = body acc x ≫= Remote.for_each body l.
Proof. reflexivity. Qed.

(** A loop whose body makes the requests [ops x] for the element [x], or
    some first of them when it raises, makes the requests of its elements in
    order, or some first of them when it raises. *)
Lemma remote_for_each_calls (body : B → A → Remote B) (ops : A → list RemoteOp) l :
  (∀ acc x, calls (body acc x) `prefix_of` ops x) →
  (∀ acc x, is_Ok (answer (body acc x)) → calls (body acc x) = ops x) →
  ∀ acc,
    calls (Remote.for_each body l acc) `prefix_of` (l ≫= ops) ∧
    (is_Ok (answer (Remote.for_each body l acc)) →
     calls (Remote.for_each body l acc) = l ≫= ops).
Proof.
  intros Hpre Hall. induction l as [|x l IH]; intros acc.
  - split; [apply prefix_nil | done].
  - rewrite remote_for_each_cons, bind_cons.
    destruct (answer (body acc x)) as [b|e] eqn:Hx.
    + rewrite (remote_bind_ok _ _ b Hx); simpl.
      rewrite (Hall acc x) by (by rewrite Hx).
      destruct (IH b) as [IH1 IH2]. split.
      * by apply prefix_app.
      * intros Hok. by rewrite IH2.
    + rewrite (remote_bind_raise _ _ e Hx); simpl. split; [|done].
      by apply prefix_app_r.
Qed.

(** A property of the accumulator that every body that returns keeps holds
    of what the loop returns. *)
Lemma remote_for_each_inv (body : B → A → Remote B) (P : B → Prop) l :
  (∀ acc x b, x ∈ l → P acc → answer (body acc x) = Ok b → P b) →
  ∀ acc r, P acc → answer (Remote.for_each body l acc) = Ok r → P r.
Proof.
  induction l as [|x l IH]; intros Hbody acc r Hacc.
  - simpl. by intros [= <-].
  - rewrite remote_for_each_cons.
    destruct (answer (body acc x)) as [b|e] eqn:Hx.
    + rewrite (remote_bind_ok _ _ b Hx); simpl. apply IH.
      * intros acc' y b' Hy. apply Hbody. by right.
      * eapply Hbody; [left | done..].
    + by rewrite (remote_bind_raise _ _ e Hx).
Qed.

End remote_lemmas.

(** ** [collect_paths] *)

Section collect_paths_lemmas.

Variable conn : Conn.

Lemma stat_files_calls kw m i :
  calls (stat_files conn kw m i) = [StatPathCall i None None (get_contents kw)].
Proof.
  unfold stat_files, remote_stat_path.
  destruct (stat_path conn i None None (get_contents kw)) as [r|e] eqn:Hs.
  - by erewrite remote_bind_ok.
  - by erewrite remote_bind_raise.
Qed.

Lemma stat_files_answer kw m i b :
  answer (stat_files conn kw m i) = Ok b →
  ∃ r, stat_path conn i None None (get_contents kw) = Ok r ∧ b = <[i := r]> m.
Proof.
  unfold stat_files, remote_stat_path.
  destruct (stat_path conn i None None (get_contents kw)) as [r|e] eqn:Hs.
  - erewrite remote_bind_ok by done. simpl. intros [= <-]. eauto.
  - by erewrite remote_bind_raise.
Qed.

Lemma stat_dirs_calls p m i :
  calls (stat_dirs conn p m i) `prefix_of`
    [StatPathCall i None None false; StatPathCall i None None false] ∧
  (is_Ok (answer (stat_dirs conn p m i)) →
   calls (stat_dirs conn p m i) = [StatPathCall i None None false; StatPathCall i None None false]).
Proof.
  unfold stat_dirs, remote_stat_path, mbind, Remote_bind, Remote.bind. simpl.
  destruct (stat_path conn i None None false) as [r|e]; simpl; [done|].
  split; [|done]. by exists [StatPathCall i None None false].
Qed.

Lemma stat_dirs_answer p m i b :
  answer (stat_dirs conn p m i) = Ok b →
  ∃ r, stat_path conn i None None false = Ok r ∧ b = <[p := r]> (<[i := r]> m).
Proof.
  unfold stat_dirs, remote_stat_path, mbind, Remote_bind, Remote.bind. simpl.
  destruct (stat_path conn i None None false) as [r|e]; simpl; [|done].
  intros [= <-]. eauto.
Qed.

End collect_paths_lemmas.

Section collect_root_lemmas.

Variable conn : Conn.

Lemma bind_singleton_fmap {X Y} (f : X → Y) (l : list X) :
  l ≫= (λ x, [f x]) = f <$> l.
Proof. induction l as [|x l IH]; [done|]. rewrite bind_cons, IH. done. Qed.

Lemma stat_files_loop_calls kw l acc :
  calls (Remote.for_each (stat_files conn kw) l acc) `prefix_of`
    ((λ i, StatPathCall i None None (get_contents kw)) <$> l) ∧
  (is_Ok (answer (Remote.for_each (stat_files conn kw) l acc)) →
   calls (Remote.for_each (stat_files conn kw) l acc) =
     (λ i, StatPathCall i None None (get_contents kw)) <$> l).
Proof.
  rewrite <- bind_singleton_fmap.
  apply remote_for_each_calls; intros; by rewrite stat_files_calls.
Qed.

Lemma stat_dirs_loop_calls p l acc :
  calls (Remote.for_each (stat_dirs conn p) l acc) `prefix_of`
    (l ≫= λ i, [StatPathCall i None None false; StatPathCall i None None false]) ∧
  (is_Ok (answer (Remote.for_each (stat_dirs conn p) l acc)) →
   calls (Remote.for_each (stat_dirs conn p) l acc) =
     (l ≫= λ i, [StatPathCall i None None false; StatPathCall i None None false])).
Proof.
  apply (remote_for_each_calls (stat_dirs conn p)
           (λ i, [StatPathCall i None None false; StatPathCall i None None false]));
    intros; by apply stat_dirs_calls.
Qed.

(** Every record of the files of a root is the answer to a stat of that
    file with the given capture rule. *)
Lemma stat_files_loop_answer kw l fm :
  answer (Remote.for_each (stat_files conn kw) l ∅) = Ok fm →
  ∀ f r, fm !! f = Some r →
    f ∈ l ∧ stat_path conn f None None (get_contents kw) = Ok r.
Proof.
  apply (remote_for_each_inv (stat_files conn kw)
    (λ m : gmap string StatRecord, ∀ f r, m !! f = Some r →
       f ∈ l ∧ stat_path conn f None None (get_contents kw) = Ok r)).
  - intros acc x b Hx Hacc (r & Hr & ->)%stat_files_answer f r'.
    rewrite lookup_insert. case_decide as Hf; [|by apply Hacc].
    intros [= <-]. by subst.
  - intros f r. by rewrite lookup_empty.
Qed.

(** Every record of the directories of a root is the answer to a stat,
    without capture, of a directory the walker found; it is stored under the
    path of that directory or under the root. *)
Lemma stat_dirs_loop_answer p l dm :
  answer (Remote.for_each (stat_dirs conn p) l ∅) = Ok dm →
  ∀ d r, dm !! d = Some r →
    ∃ i, i ∈ l ∧ (d = i ∨ d = p) ∧ stat_path conn i None None false = Ok r.
Proof.
  apply (remote_for_each_inv (stat_dirs conn p)
    (λ m : gmap string StatRecord, ∀ d r, m !! d = Some r →
       ∃ i, i ∈ l ∧ (d = i ∨ d = p) ∧ stat_path conn i None None false = Ok r)).
  - intros acc x b Hx Hacc (r & Hr & ->)%stat_dirs_answer d r'.
    rewrite lookup_insert. case_decide as Hd.
    { intros [= <-]. exists x. auto. }
    rewrite lookup_insert. case_decide as Hd'; [|by apply Hacc].
    intros [= <-]. exists x. auto.
  - intros d r. by rewrite lookup_empty.
Qed.

Lemma collect_root_answer pm entry pm' :
  answer (collect_root conn pm entry) = Ok pm' →
  ∃ t, pm' = <[entry.1 := t]> pm ∧ collected_root conn entry t.
Proof.
  destruct entry as [p kw]. unfold collect_root, collected_root, remote_path_tree. simpl.
  destruct (path_tree conn p (skip_dirs kw) (skip_files kw) (get_contents kw)) as [tree|e] eqn:Ht;
    [|by erewrite remote_bind_raise].
  erewrite remote_bind_ok by done. simpl.
  destruct (answer (Remote.for_each (stat_files conn kw) (tree_files tree) ∅)) as [fm|e] eqn:Hf;
    [|by erewrite remote_bind_raise].
  erewrite remote_bind_ok by done. simpl.
  destruct (answer (Remote.for_each (stat_dirs conn p) (tree_dirs tree) ∅)) as [dm|e] eqn:Hd;
    [|by erewrite remote_bind_raise].
  erewrite remote_bind_ok by done. simpl. intros [= <-].
  exists {| dirs := dm; files := fm |}. split; [done|]. by exists tree.
Qed.

Lemma collect_root_calls pm entry :
  calls (collect_root conn pm entry) `prefix_of` root_calls conn entry ∧
  (is_Ok (answer (collect_root conn pm entry)) →
   calls (collect_root conn pm entry) = root_calls conn entry).
Proof.
  destruct entry as [p kw].
  unfold collect_root, root_calls, walk_call, file_calls, dir_calls, remote_path_tree. simpl.
  destruct (path_tree conn p (skip_dirs kw) (skip_files kw) (get_contents kw)) as [tree|e] eqn:Ht;
    [|by erewrite remote_bind_raise].
  erewrite remote_bind_ok by done. simpl.
  destruct (stat_files_loop_calls kw (tree_files tree) ∅) as [Hf1 Hf2].
  destruct (stat_dirs_loop_calls p (tree_dirs tree) ∅) as [Hd1 Hd2].
  destruct (answer (Remote.for_each (stat_files conn kw) (tree_files tree) ∅)) as [fm|e] eqn:Hf.
  - erewrite remote_bind_ok by done. simpl. rewrite Hf2 by done.
    destruct (answer (Remote.for_each (stat_dirs conn p) (tree_dirs tree) ∅)) as [dm|e] eqn:Hd.
    + erewrite remote_bind_ok by done. simpl. rewrite Hd2 by done.
      by rewrite app_nil_r.
    + erewrite remote_bind_raise by done. simpl. split; [|done].
      apply prefix_cons, prefix_app, Hd1.
  - erewrite remote_bind_raise by done. simpl. split; [|done].
    apply prefix_cons. by apply prefix_app_r.
Qed.

(** The requests of [collect_paths]: those of the three roots in order, cut
    short where a request fails. *)
Lemma collect_paths_calls :
  calls (collect_paths conn) `prefix_of` (paths ≫= root_calls conn) ∧
  (is_Ok (answer (collect_paths conn)) →
   calls (collect_paths conn) = paths ≫= root_calls conn).
Proof.
  apply remote_for_each_calls; intros; by apply collect_root_calls.
Qed.

Lemma collect_roots_answer l : 
  NoDup l.*1 →
  ∀ acc pm, answer (Remote.for_each (collect_root conn) l acc) = Ok pm →
    (∀ entry, entry ∈ l → ∃ t, pm !! entry.1 = Some t ∧ collected_root conn entry t) ∧
    (∀ p, p ∉ l.*1 → pm !! p = acc !! p).
Proof.
  induction l as [|x l IH]; intros Hnd acc pm.
  - simpl. intros [= <-]. split; [by intros ? ?%elem_of_nil | done].
  - rewrite fmap_cons in Hnd. apply NoDup_cons in Hnd as [Hx Hnd].
    rewrite remote_for_each_cons.
    destruct (answer (collect_root conn acc x)) as [acc'|e] eqn:Hr;
      [|by erewrite remote_bind_raise].
    erewrite remote_bind_ok by done. simpl. intros Hl.
    apply collect_root_answer in Hr as (t & -> & Ht).
    destruct (IH Hnd _ _ Hl) as [IH1 IH2]. split.
    + intros entry [->|Hin]%elem_of_cons; [|by apply IH1].
      exists t. split; [|done]. by rewrite IH2, lookup_insert_eq.
    + intros p [Hne Hp]%not_elem_of_cons.
      by rewrite IH2, lookup_insert_ne.
Qed.

Lemma paths_NoDup : NoDup paths.*1.
Proof.
  unfold paths. simpl. rewrite !NoDup_cons, !not_elem_of_cons.
  repeat split; try done; try apply not_elem_of_nil. apply NoDup_nil_2.
Qed.

Lemma collect_paths_answer pm :
  answer (collect_paths conn) = Ok pm →
  ∀ entry, entry ∈ paths → ∃ t, pm !! entry.1 = Some t ∧ collected_root conn entry t.
Proof. intros Hpm. by apply (collect_roots_answer paths paths_NoDup ∅ pm). Qed.

End collect_root_lemmas.

(** ** Requests that answer and requests that fail *)

Section stops_lemmas.

Variable conn : Conn.

Lemma stops_ret {A} (a : A) : stops_at_failure conn (Remote.ret a).
Proof. by constructor. Qed.

Lemma stops_call {A} op (r : Result A) :
  failure conn op = match r with Ok _ => None | Raise e => Some e end →
  stops_at_failure conn (Remote.call op r).
Proof.
  intros Hop. unfold stops_at_failure, Remote.call. cbn [answer calls].
  destruct r as [a|e].
  - by repeat constructor.
  - by exists [], op.
Qed.

Lemma stops_bind {A B} (m : Remote A) (f : A → Remote B) :
  stops_at_failure conn m → (∀ a, stops_at_failure conn (f a)) →
  stops_at_failure conn (m ≫= f).
Proof.
  intros Hm Hf. unfold stops_at_failure in Hm.
  destruct (answer m) as [a|e] eqn:Ha.
  - rewrite (remote_bind_ok _ _ a Ha). specialize (Hf a).
    unfold stops_at_failure in *. cbn [answer calls].
    destruct (answer (f a)) as [b|e].
    + by apply Forall_app.
    + destruct Hf as (cs & op & -> & Hcs & Hop).
      exists (calls m ++ cs), op. split; [by rewrite app_assoc|].
      split; [by apply Forall_app|done].
  - rewrite (remote_bind_raise _ _ e Ha). unfold stops_at_failure. by cbn [answer calls].
Qed.

Lemma stops_for_each {A B} (body : B → A → Remote B) l :
  (∀ acc x, stops_at_failure conn (body acc x)) →
  ∀ acc, stops_at_failure conn (Remote.for_each body l acc).
Proof.
  intros Hbody. induction l as [|x l IH]; intros acc; [apply stops_ret|].
  rewrite remote_for_each_cons. by apply stops_bind.
Qed.

Lemma stops_stat_path p sd sf gc : stops_at_failure conn (remote_stat_path conn p sd sf gc).
Proof. apply stops_call. cbn. by destruct (stat_path conn p sd sf gc). Qed.

Lemma stops_path_tree p sd sf gc : stops_at_failure conn (remote_path_tree conn p sd sf gc).
Proof. apply stops_call. cbn. by destruct (path_tree conn p sd sf gc). Qed.

Lemma stops_collect_root pm entry : stops_at_failure conn (collect_root conn pm entry).
Proof.
  destruct entry as [p kw]. unfold collect_root.
  apply stops_bind; [apply stops_path_tree|]. intros tree.
  apply stops_bind.
  { apply stops_for_each. intros fm i. unfold stat_files.
    apply stops_bind; [apply stops_stat_path|]. intros r. apply stops_ret. }
  intros fm. apply stops_bind; [|intros dm; apply stops_ret].
  apply stops_for_each. intros dm i. unfold stat_dirs.
  apply stops_bind; [apply stops_stat_path|]. intros r.
  apply stops_bind; [apply stops_stat_path|]. intros r'. apply stops_ret.
Qed.

Lemma collect_paths_stops : stops_at_failure conn (collect_paths conn).
Proof. apply stops_for_each. intros pm entry. apply stops_collect_root. Qed.

End stops_lemmas.

(** A list that starts another list with one more element starts that
    list or is the whole of it. *)
Lemma prefix_snoc_inv {X} (l k : list X) (x : X) :
  l `prefix_of` k ++ [x] → l `prefix_of` k ∨ l = k ++ [x].
Proof.
  intros [m Hm]. destruct m as [|y m _] using rev_ind.
  - right. by rewrite app_nil_r in Hm.
  - left. rewrite app_assoc in Hm. apply app_inj_tail in Hm as [-> _]. by exists m.
Qed.

(** ** The paths of interest *)

Lemma filter_walk_root_calls conn entry :
  filter is_walk (root_calls conn entry) = [walk_call entry].
Proof.
  unfold root_calls. rewrite filter_cons_True by done. f_equal.
  destruct (path_tree conn _ _ _ _) as [tree|e]; [|done].
  unfold file_calls, dir_calls. rewrite filter_app.
  assert (filter is_walk ((λ i, StatPathCall i None None (get_contents entry.2)) <$> tree_files tree) = []) as ->.
  { induction (tree_files tree) as [|i l IH]; [done|].
    rewrite fmap_cons, filter_cons_False by (by intros []). done. }
  induction (tree_dirs tree) as [|i l IH]; [done|].
  rewrite bind_cons. simpl.
  rewrite !filter_cons_False by (by intros []). done.
Qed.

Lemma filter_walk_roots conn (l : list (string * Rules)) :
  filter is_walk (l ≫= root_calls conn) = walk_call <$> l.
Proof.
  induction l as [|entry l IH]; [done|].
  by rewrite bind_cons, filter_app, filter_walk_root_calls, IH.
Qed.

(** C7: the configuration of the paths of interest has exactly the three
    roots [/etc/ceph], [/var/lib/ceph] and [/var/run/ceph], each with rules
    of its own; [collect_paths] goes through it in that order and asks the
    walker once for each root, with the rules of that root. The walks it
    makes are the first of these three, none twice, and all three when it
    returns; and the walk of a root is made, right after the requests of the
    roots before it, whenever these requests have all answered: the first
    root is always walked, and a root is left out only when a request before
    it has failed. *)
Theorem paths_walked_in_order (conn : Conn) :
  paths.*1 = ["/etc/ceph"; "/var/lib/ceph"; "/var/run/ceph"] ∧
  walk_call <$> paths =
    [PathTreeCall "/etc/ceph" None None true;
     PathTreeCall "/var/lib/ceph" (Some ["current"; "store.db"])
       (Some ["activate.monmap"; "superblock"]) true;
     PathTreeCall "/var/run/ceph" None None false] ∧
  filter is_walk (calls (collect_paths conn)) `prefix_of` (walk_call <$> paths) ∧
  (is_Ok (answer (collect_paths conn)) →
   filter is_walk (calls (collect_paths conn)) = walk_call <$> paths) ∧
  (∀ before entry after,
     paths = before ++ entry :: after →
     Forall (λ op, failure conn op = None) (before ≫= root_calls conn) →
     ((before ≫= root_calls conn) ++ [walk_call entry]) `prefix_of` calls (collect_paths conn)).
Proof.
  split; [done|]. split; [done|].
  destruct (collect_paths_calls conn) as [Hpre Heq].
  rewrite <- (filter_walk_roots conn). split; [|split].
  - destruct Hpre as [k Hk]. rewrite Hk, filter_app. by apply prefix_app_r.
  - intros Hok. by rewrite Heq.
  - intros before entry after Hsplit Hans.
    assert (((before ≫= root_calls conn) ++ [walk_call entry])
              `prefix_of` (paths ≫= root_calls conn)) as Hexp.
    { rewrite Hsplit, bind_app, bind_cons. apply prefix_app.
      unfold root_calls at 1. by eexists. }
    pose proof (collect_paths_stops conn) as Hstop. unfold stops_at_failure in Hstop.
    destruct (answer (collect_paths conn)) as [pm|e].
    { by rewrite Heq. }
    destruct Hstop as (cs & op & Hcs & _ & Hop).
    destruct (prefix_weak_total _ _ _ Hexp Hpre) as [Hle|Hle]; [done|].
    apply prefix_snoc_inv in Hle as [[k Hk] | ->]; [|done].
    assert (op ∈ before ≫= root_calls conn) as Hin.
    { rewrite Hk, Hcs. apply elem_of_app. left. apply elem_of_app. right. by left. }
    apply (proj1 (Forall_forall _ _) Hans) in Hin. congruence.
Qed.

(** On the healthy peer of the sample cluster every request answers, and
    the three roots are walked. *)
Lemma paths_walked_in_order_witness :
  is_Ok (answer (collect_paths sample_peer)) ∧
  filter is_walk (calls (collect_paths sample_peer)) =
    [PathTreeCall "/etc/ceph" None None true;
     PathTreeCall "/var/lib/ceph" (Some ["current"; "store.db"])
       (Some ["activate.monmap"; "superblock"]) true;
     PathTreeCall "/var/run/ceph" None None false].
Proof.
  assert (is_Ok (answer (collect_paths sample_peer))) as Hok.
  { vm_compute. exact I. }
  split; [exact Hok|].
  destruct (paths_walked_in_order sample_peer) as (_ & <- & _ & Hall & _).
  exact (Hall Hok).
Defined.

(** ** Capture of contents *)

Lemma spec_stat_path_no_capture fs path sd sf r :
  spec_stat_path fs path sd sf false = Ok r → contents r = None.
Proof.
  unfold spec_stat_path. destruct (fs path) as [e|]; [|done].
  by intros [= <-].
Qed.

(** C6: [collect_paths] stats every file with the capture rule of the root
    it was found under, and every directory, twice, without capture (the
    second stat is the one stored under the root); these are all its stat
    requests ([root_calls]). With the stat collector of the specification,
    the record of a directory then has no contents, and neither has the
    record of a file under a root whose rule is not to capture. *)
Theorem capture_follows_rules (conn : Conn) (fs : string → option RemoteEntry) :
  stat_path conn = spec_stat_path fs →
  calls (collect_paths conn) `prefix_of` (paths ≫= root_calls conn) ∧
  ∀ pm, answer (collect_paths conn) = Ok pm →
    calls (collect_paths conn) = paths ≫= root_calls conn ∧
    ∀ entry, entry ∈ paths →
      ∃ t, pm !! entry.1 = Some t ∧
        (∀ d r, dirs t !! d = Some r → contents r = None) ∧
        (∀ f r, files t !! f = Some r →
           stat_path conn f None None (get_contents entry.2) = Ok r ∧
           (get_contents entry.2 = false → contents r = None)).
Proof.
  intros Hstat. destruct (collect_paths_calls conn) as [Hpre Heq].
  split; [done|]. intros pm Hpm. split; [apply Heq; by rewrite Hpm|].
  intros entry Hin.
  destruct (collect_paths_answer conn pm Hpm entry Hin) as (t & Ht & tree & _ & Hf & Hd).
  exists t. split; [done|]. split.
  - intros d r Hr.
    destruct (stat_dirs_loop_answer conn _ _ _ Hd d r Hr) as (i & _ & _ & Hi).
    rewrite Hstat in Hi. by eapply spec_stat_path_no_capture.
  - intros f r Hr.
    destruct (stat_files_loop_answer conn _ _ _ Hf f r Hr) as [_ Hs].
    split; [done|]. intros Hgc. rewrite Hstat, Hgc in Hs.
    by eapply spec_stat_path_no_capture.
Qed.

(** The healthy peer of the sample cluster answers stats as the
    specification says. *)
Lemma capture_follows_rules_witness :
  stat_path sample_peer = spec_stat_path sample_fs ∧
  calls (collect_paths sample_peer) `prefix_of` (paths ≫= root_calls sample_peer) ∧
  ∀ pm, answer (collect_paths sample_peer) = Ok pm →
    calls (collect_paths sample_peer) = paths ≫= root_calls sample_peer ∧
    ∀ entry, entry ∈ paths →
      ∃ t, pm !! entry.1 = Some t ∧
        (∀ d r, dirs t !! d = Some r → contents r = None) ∧
        (∀ f r, files t !! f = Some r →
           stat_path sample_peer f None None (get_contents entry.2) = Ok r ∧
           (get_contents entry.2 = false → contents r = None)).
Proof.
  split; [reflexivity|].
  apply (capture_follows_rules sample_peer sample_fs). reflexivity.
Defined.

(** ** The entry of the root itself *)

(** C5 (fails on the code): the entry of the root under ['dirs'] is written
    inside the loop over the directories the walker found, from a stat of
    the directory at hand. On a peer whose walker finds no directory under
    [/etc/ceph], ['dirs'] has no entry for [/etc/ceph]; on a peer whose
    walker finds [/etc/ceph/ceph.d], the entry for [/etc/ceph] is the stat
    record of [/etc/ceph/ceph.d], which is not that of [/etc/ceph]. *)
Theorem root_entry_from_last_dir :
  (∃ pm t, answer (collect_paths bare_peer) = Ok pm ∧
     pm !! "/etc/ceph" = Some t ∧ dirs t !! "/etc/ceph" = None) ∧
  (∃ pm t r, answer (collect_paths sample_peer) = Ok pm ∧
     pm !! "/etc/ceph" = Some t ∧ dirs t !! "/etc/ceph" = Some r ∧
     stat_path sample_peer "/etc/ceph/ceph.d" None None false = Ok r ∧
     stat_path sample_peer "/etc/ceph" None None false ≠ Ok r).
Proof.
  split.
  - eexists _, _. split; [reflexivity|]. split; [reflexivity|]. by vm_compute.
  - eexists _, _, _. split; [reflexivity|]. split; [reflexivity|].
    split; [reflexivity|]. split; [reflexivity|]. by vm_compute.
Qed.

(** ** Computations of the collector *)

Lemma run_eta {A} (r : Run A) :
  {| output := output r; outcome := outcome r; store := store r |} = r.
Proof. by destruct r. Qed.

Lemma collector_bind_ok {A B} (m : Collector A) (f : A → Collector B) md a :
  outcome (m md) = Ok a →
  (m ≫= f) md =
    {| output := output (m md) ++ output (f a (store (m md)));
       outcome := outcome (f a (store (m md)));
       store := store (f a (store (m md))) |}.
Proof. unfold mbind, Collector_bind, Collector.bind. by intros ->. Qed.

Lemma collector_bind_raise {A B} (m : Collector A) (f : A → Collector B) md e :
  outcome (m md) = Raise e →
  (m ≫= f) md = {| output := output (m md); outcome := Raise e; store := store (m md) |}.
Proof. unfold mbind, Collector_bind, Collector.bind. by intros ->. Qed.

Lemma collector_bind_ext {A B} (m m' : Collector A) (f f' : A → Collector B) md :
  m md = m' md → (∀ a md', f a md' = f' a md') → (m ≫= f) md = (m' ≫= f') md.
Proof.
  intros Hm Hf. unfold mbind, Collector_bind, Collector.bind. rewrite Hm.
  destruct (outcome (m' md)); [|done]. by rewrite Hf.
Qed.

Section collector_lemmas.

Context {A B : Type}.

Implicit Types (body : B → A → Collector B) (l : list A).

Lemma collector_for_each_cons body x l acc md :
  Collector.for_each body (x :: l) acc md = (body acc x ≫= Collector.for_each body l) md.
Proof. reflexivity. Qed.

Lemma collector_for_each_app body l1 l2 : ∀ acc md,
  Collector.for_each body (l1 ++ l2) acc md =
  (Collector.for_each body l1 acc ≫= Collector.for_each body l2) md.
Proof.
  induction l1 as [|x l1 IH]; intros acc md.
  - unfold mbind, Collector_bind, Collector.bind. simpl. by rewrite run_eta.
  - unfold mbind, Collector_bind in *. simpl. unfold Collector.bind in *.
    destruct (body acc x md) as [o [b|e] s]; simpl; [|done].
    rewrite IH.
    destruct (Collector.for_each body l1 b s) as [o' [c|e] s']; simpl; [|done].
    by rewrite app_assoc.
Qed.

(** Whatever each body keeps of the store, the loop keeps, however it
    ends. *)
Lemma collector_for_each_store body (P : Metadata → Prop) l :
  (∀ acc x md, P md → P (store (body acc x md))) →
  ∀ acc md, P md → P (store (Collector.for_each body l acc md)).
Proof.
  intros Hbody. induction l as [|x l IH]; intros acc md Hmd; [done|].
  rewrite collector_for_each_cons.
  destruct (outcome (body acc x md)) as [b|e] eqn:Hx.
  - rewrite (collector_bind_ok _ _ _ b Hx). simpl. by apply IH, Hbody.
  - rewrite (collector_bind_raise _ _ _ e Hx). simpl. by apply Hbody.
Qed.

End collector_lemmas.

Lemma collector_for_each_fmap {A A' B} (body : B → A → Collector B) (g : A' → A) l :
  ∀ acc md,
    Collector.for_each body (g <$> l) acc md =
    Collector.for_each (λ acc x, body acc (g x)) l acc md.
Proof.
  induction l as [|x l IH]; intros acc md; [done|].
  rewrite fmap_cons, !collector_for_each_cons.
  by apply collector_bind_ext.
Qed.

(** The steps of [collect_node], one at a time. *)
Lemma prepend_mk {A} evs o (oc : Result A) s :
  prepend evs {| output := o; outcome := oc; store := s |} =
    {| output := evs ++ o; outcome := oc; store := s |}.
Proof. reflexivity. Qed.

Lemma bind_cluster_nodes {B} (f : list (string * list Node) → Collector B) md :
  (Collector.cluster_nodes ≫= f) md = f (nodes md) md.
Proof.
  unfold mbind, Collector_bind, Collector.bind, Collector.cluster_nodes.
  cbn [output outcome store app]. apply run_eta.
Qed.

Lemma bind_emit {B} (ev : Event) (f : unit → Collector B) md :
  (Collector.emit ev ≫= f) md = prepend [ev] (f tt md).
Proof. reflexivity. Qed.

Lemma bind_write {B} (l : Line) (f : unit → Collector B) md :
  (write l ≫= f) md = prepend [Write l] (f tt md).
Proof. reflexivity. Qed.

Lemma bind_logger {B} level msg (f : unit → Collector B) md :
  (logger level msg ≫= f) md = prepend [Log level msg] (f tt md).
Proof. reflexivity. Qed.

Lemma bind_remote {A B} h (m : Remote A) (f : A → Collector B) md :
  (Collector.remote h m ≫= f) md =
    match answer m with
    | Ok a => prepend (RemoteCall h <$> calls m) (f a md)
    | Raise e => {| output := RemoteCall h <$> calls m; outcome := Raise e; store := md |}
    end.
Proof.
  unfold mbind, Collector_bind, Collector.bind, Collector.remote. simpl.
  by destruct (answer m).
Qed.

Lemma bind_call {A B} h op (r : Result A) (f : A → Collector B) md :
  (Collector.remote h (Remote.call op r) ≫= f) md =
    match r with
    | Ok a => prepend [RemoteCall h op] (f a md)
    | Raise e => {| output := [RemoteCall h op]; outcome := Raise e; store := md |}
    end.
Proof. rewrite bind_remote. by destruct r. Qed.

Lemma bind_setitem {B} t h nm (f : unit → Collector B) md :
  (Collector.setitem t h nm ≫= f) md =
    match roles md !! t with
    | Some d => f tt {| nodes := nodes md; roles := <[t := <[h := nm]> d]> (roles md) |}
    | None => {| output := []; outcome := Raise (KeyError t); store := md |}
    end.
Proof.
  unfold mbind, Collector_bind, Collector.bind, Collector.setitem, Collector.raise.
  destruct (roles md !! t); simpl; [|done]. by rewrite run_eta.
Qed.

(** ** One node *)

Section collect_lemmas.

Variable get_connection : string → option Conn.

Implicit Types (cn : list (string * list Node)) (tn : string * Node).

(** The two loops of [collect] as one loop over the nodes in order. *)
Lemma collect_nodes_flat cn groups : ∀ cnt md,
  Collector.for_each (collect_nodes get_connection cn) groups cnt md =
  Collector.for_each (collect_each get_connection cn) (flat_nodes groups) cnt md.
Proof.
  induction groups as [|[t ns] groups IH]; intros cnt md; [done|].
  unfold flat_nodes. rewrite bind_cons, collector_for_each_app, collector_for_each_cons.
  apply collector_bind_ext; [|done].
  simpl. by rewrite collector_for_each_fmap.
Qed.

(** A host that is not found: the node is counted as failed and the loop
    goes on. *)
Lemma collect_node_not_found cn t cnt n md :
  get_connection (host n) = None →
  collect_node get_connection cn t cnt n md =
    {| output := not_found_events (host n);
       outcome := Ok {| total_nodes := total_nodes cnt + 1;
                        failed_nodes := failed_nodes cnt + 1 |};
       store := md |}.
Proof. intros Hc. unfold collect_node. by rewrite Hc. Qed.

(** A host that is found: the node is stored and the connection closed when
    every request answers and there is a dict for the node type; otherwise
    the exception leaves [collect_node], nothing is stored and the
    connection is not closed. *)
Lemma collect_node_found cn t cnt n md conn :
  get_connection (host n) = Some conn →
  let r := collect_node get_connection cn t cnt n md in
  match built cn conn with
  | Ok nm =>
      match roles md !! t with
      | Some d =>
          r = {| output := connected_events (host n) ++ build_events (host n) conn ++
                           [RemoteCall (host n) Exit];
                 outcome := Ok {| total_nodes := total_nodes cnt + 1;
                                  failed_nodes := failed_nodes cnt |};
                 store := {| nodes := nodes md;
                             roles := <[t := <[host n := nm]> d]> (roles md) |} |}
      | None =>
          r = {| output := connected_events (host n) ++ build_events (host n) conn;
                 outcome := Raise (KeyError t);
                 store := md |}
      end
  | Raise e =>
      outcome r = Raise e ∧ store r = md ∧
      ∃ evs, output r = connected_events (host n) ++ evs ∧
             evs `prefix_of` build_events (host n) conn
  end.
Proof.
  intros Hc. unfold collect_node, built, build_events. rewrite Hc.
  cbv zeta.
  rewrite bind_write, bind_logger, bind_emit, !bind_write, bind_call.
  destruct (import_module conn) as [[]|e].
  2:{ rewrite !prepend_mk. cbn [output outcome store app].
      split; [done|]. split; [done|]. eexists. split; [done|]. by eexists. }
  rewrite bind_write, bind_remote.
  destruct (answer (collect_paths conn)) as [paths|e].
  2:{ rewrite !prepend_mk. cbn [output outcome store app].
      split; [done|]. split; [done|]. eexists. split; [done|]. by eexists. }
  rewrite !bind_write, bind_call.
  destruct (ceph_version conn) as [v|e].
  2:{ rewrite !prepend_mk. cbn [output outcome store app].
      split; [done|]. split; [done|]. eexists. split; [done|].
      exists [Write (HostCollecting (host n) (Col green "paths"));
              RemoteCall (host n) CephIsInstalled;
              Write (HostCollecting (host n) (Col green "paths"))].
      cbn [app]. do 2 f_equal. by rewrite <- app_assoc. }
  rewrite bind_write, bind_call.
  destruct (ceph_is_installed conn) as [i|e].
  2:{ rewrite !prepend_mk. cbn [output outcome store app].
      split; [done|]. split; [done|]. eexists. split; [done|].
      exists [Write (HostCollecting (host n) (Col green "paths"))].
      cbn [app]. do 2 f_equal. by rewrite <- app_assoc. }
  rewrite bind_write, bind_setitem.
  destruct (roles md !! t) as [d|].
  - rewrite bind_call.
    unfold mret, Collector_ret, Collector.ret, connected_events, connecting_events.
    rewrite !prepend_mk. cbn [output outcome store app].
    do 3 f_equal; by rewrite <- app_assoc.
  - unfold connected_events, connecting_events.
    rewrite !prepend_mk. cbn [output outcome store app].
    do 3 f_equal; by rewrite app_nil_r.
Qed.

(** ** The loop over the nodes *)

Lemma failures_cons_not_found tn l :
  get_connection (host tn.2) = None →
  failures get_connection (tn :: l) = S (failures get_connection l).
Proof. intros Hc. unfold failures. by rewrite filter_cons_True. Qed.

Lemma failures_cons_found tn l conn :
  get_connection (host tn.2) = Some conn →
  failures get_connection (tn :: l) = failures get_connection l.
Proof.
  intros Hc. unfold failures. rewrite filter_cons_False; [done|]. by rewrite Hc.
Qed.

Lemma failures_le l : (failures get_connection l ≤ length l)%nat.
Proof. apply length_filter. Qed.

Lemma failures_lt l tn :
  tn ∈ l → is_Some (get_connection (host tn.2)) →
  (failures get_connection l < length l)%nat.
Proof.
  intros Hin [conn Hc]. induction l as [|x l IH]; [by apply elem_of_nil in Hin|].
  apply elem_of_cons in Hin as [<-|Hin].
  - rewrite (failures_cons_found _ _ conn Hc). simpl.
    pose proof (failures_le l). lia.
  - specialize (IH Hin). simpl.
    destruct (get_connection (host x.2)) as [c|] eqn:Hx.
    + rewrite (failures_cons_found _ _ c Hx). lia.
    + rewrite (failures_cons_not_found _ _ Hx). lia.
Qed.

Lemma failures_all l :
  Forall (λ tn, get_connection (host tn.2) = None) l →
  failures get_connection l = length l.
Proof.
  induction 1 as [|x l Hx _ IH]; [done|].
  rewrite (failures_cons_not_found _ _ Hx). simpl. by rewrite IH.
Qed.

Lemma collect_each_unfold cn cnt tn md :
  collect_each get_connection cn cnt tn md =
  collect_node get_connection cn tn.1 cnt tn.2 md.
Proof. reflexivity. Qed.

(** Along nodes the collector gets past, the loop returns: it has counted
    the nodes and those not found, written the events of each node in order,
    and stored the metadata of each node that was found. *)
Lemma collect_each_ok md0 l : ∀ cnt md,
  Forall (node_ok get_connection md0) l →
  (∀ t, is_Some (roles md0 !! t) → is_Some (roles md !! t)) →
  Collector.for_each (collect_each get_connection (nodes md0)) l cnt md =
    {| output := l ≫= node_events get_connection;
       outcome := Ok {| total_nodes := total_nodes cnt + length l;
                        failed_nodes := failed_nodes cnt + failures get_connection l |};
       store := {| nodes := nodes md;
                   roles := foldl (commit_node get_connection (nodes md0)) (roles md) l |} |}.
Proof.
  induction l as [|tn l IH]; intros cnt md Hok Hdom.
  - destruct cnt, md. unfold failures. simpl. unfold Collector.ret.
    by rewrite !Nat.add_0_r.
  - apply Forall_cons in Hok as [Htn Hok].
    rewrite collector_for_each_cons, bind_cons.
    unfold node_ok in Htn. unfold node_events at 1. simpl foldl. unfold commit_node at 2.
    destruct (get_connection (host tn.2)) as [conn|] eqn:Hc.
    + destruct Htn as [Hb [d Hd]%Hdom].
      pose proof (collect_node_found (nodes md0) tn.1 cnt tn.2 md conn Hc) as Hn.
      destruct (built (nodes md0) conn) as [nm|e]; [|done].
      rewrite Hd in Hn |- *. cbv zeta in Hn.
      erewrite collector_bind_ok by (by rewrite collect_each_unfold, Hn).
      rewrite collect_each_unfold, Hn. cbn [output outcome store].
      rewrite IH; [|done|].
      * cbn [output outcome store nodes roles total_nodes failed_nodes length].
        rewrite (failures_cons_found _ _ conn Hc), <- !app_assoc.
        by replace (total_nodes cnt + 1 + length l) with (total_nodes cnt + S (length l)) by lia.
      * cbn [roles]. intros t Ht. apply lookup_insert_is_Some'. right. by apply Hdom.
    + erewrite collector_bind_ok
        by (by rewrite collect_each_unfold, (collect_node_not_found _ _ _ _ _ Hc)).
      rewrite collect_each_unfold, (collect_node_not_found _ _ _ _ _ Hc).
      cbn [output outcome store]. rewrite IH by done.
      cbn [output outcome store nodes roles total_nodes failed_nodes length].
      rewrite (failures_cons_not_found _ _ Hc).
      replace (total_nodes cnt + 1 + length l) with (total_nodes cnt + S (length l)) by lia.
      by replace (failed_nodes cnt + 1 + failures get_connection l)
        with (failed_nodes cnt + S (failures get_connection l)) by lia.
Qed.

(** [collect], once the loop over the nodes has ended. *)
Lemma collect_unfold md :
  let r := Collector.for_each (collect_each get_connection (nodes md))
             (flat_nodes (nodes md)) {| total_nodes := 0; failed_nodes := 0 |} md in
  collect get_connection md =
    match outcome r with
    | Ok cnt =>
        if decide (failed_nodes cnt = total_nodes cnt) then
          {| output := header :: output r ++ [failed_line];
             outcome := Raise (RuntimeError all_failed_msg);
             store := store r |}
        else
          {| output := header :: output r ++ [completed_line];
             outcome := Ok tt;
             store := store r |}
    | Raise e => {| output := header :: output r; outcome := Raise e; store := store r |}
    end.
Proof.
  cbv zeta. unfold collect. rewrite bind_cluster_nodes, bind_write.
  fold header.
  destruct (outcome (Collector.for_each (collect_each get_connection (nodes md))
                       (flat_nodes (nodes md)) {| total_nodes := 0; failed_nodes := 0 |} md))
    as [cnt|e] eqn:Ho.
  - erewrite collector_bind_ok by (rewrite collect_nodes_flat; exact Ho).
    rewrite collect_nodes_flat, prepend_mk.
    case_decide.
    + rewrite bind_write. unfold Collector.raise. rewrite prepend_mk.
      fold failed_line. cbn [output outcome store]. by rewrite app_nil_r.
    + unfold write, Collector.emit. fold completed_line. by cbn [output outcome store].
  - erewrite collector_bind_raise by (rewrite collect_nodes_flat; exact Ho).
    by rewrite collect_nodes_flat, prepend_mk.
Qed.

(** ** What is stored *)

(** However a node ends, the store is left as [commit_node] says. *)
Lemma collect_each_store cn cnt tn md :
  store (collect_each get_connection cn cnt tn md) =
    {| nodes := nodes md; roles := commit_node get_connection cn (roles md) tn |}.
Proof.
  rewrite collect_each_unfold. unfold commit_node.
  destruct (get_connection (host tn.2)) as [conn|] eqn:Hc.
  - pose proof (collect_node_found cn tn.1 cnt tn.2 md conn Hc) as Hn. cbv zeta in Hn.
    destruct (built cn conn) as [nm|e].
    + destruct (roles md !! tn.1) as [d|]; rewrite Hn; cbn [store]; [done|by destruct md].
    + destruct Hn as (_ & -> & _). by destruct md.
  - rewrite (collect_node_not_found _ _ _ _ _ Hc). cbn [store]. by destruct md.
Qed.

Lemma commit_node_dom cn rs tn t :
  is_Some (rs !! t) → is_Some (commit_node get_connection cn rs tn !! t).
Proof.
  intros Ht. unfold commit_node.
  destruct (get_connection (host tn.2)) as [conn|]; [|done].
  destruct (built cn conn) as [nm|e]; [|done].
  destruct (rs !! tn.1) as [d|]; [|done].
  apply lookup_insert_is_Some'. by right.
Qed.

Lemma commit_nodes_dom cn l : ∀ rs t,
  is_Some (rs !! t) → is_Some (foldl (commit_node get_connection cn) rs l !! t).
Proof.
  induction l as [|tn l IH]; intros rs t Ht; [done|].
  simpl. by apply IH, commit_node_dom.
Qed.

(** A node that is found and built is stored under its type and host. *)
Lemma commit_node_sets cn rs tn conn nm :
  get_connection (host tn.2) = Some conn →
  built cn conn = Ok nm →
  is_Some (rs !! tn.1) →
  commit_node get_connection cn rs tn !! tn.1 ≫= (.!! host tn.2) = Some nm.
Proof.
  intros Hc Hb [d Hd]. unfold commit_node. rewrite Hc, Hb, Hd.
  rewrite lookup_insert_eq. simpl. by rewrite lookup_insert_eq.
Qed.

(** The metadata of a host, once stored under a node type, stays: a later
    node of the same type and host is built over the same connection. *)
Lemma commit_node_keeps cn rs tn t h conn nm :
  get_connection h = Some conn →
  built cn conn = Ok nm →
  rs !! t ≫= (.!! h) = Some nm →
  commit_node get_connection cn rs tn !! t ≫= (.!! h) = Some nm.
Proof.
  intros Hc Hb Hrs. unfold commit_node.
  destruct (get_connection (host tn.2)) as [conn'|] eqn:Hc'; [|done].
  destruct (built cn conn') as [nm'|e] eqn:Hb'; [|done].
  destruct (rs !! tn.1) as [d|] eqn:Hd; [|done].
  destruct (decide (tn.1 = t)) as [<-|Hne].
  - rewrite lookup_insert_eq. simpl. rewrite Hd in Hrs. simpl in Hrs.
    destruct (decide (host tn.2 = h)) as [<-|Hne].
    + rewrite lookup_insert_eq. congruence.
    + by rewrite lookup_insert_ne.
  - by rewrite lookup_insert_ne.
Qed.

Lemma commit_nodes_keep cn l t h conn nm : ∀ rs,
  get_connection h = Some conn →
  built cn conn = Ok nm →
  rs !! t ≫= (.!! h) = Some nm →
  foldl (commit_node get_connection cn) rs l !! t ≫= (.!! h) = Some nm.
Proof.
  induction l as [|tn l IH]; intros rs Hc Hb Hrs; [done|].
  simpl. apply IH; [done..|]. by eapply commit_node_keeps.
Qed.

Lemma commit_nodes_set cn l tn conn nm : ∀ rs,
  tn ∈ l →
  get_connection (host tn.2) = Some conn →
  built cn conn = Ok nm →
  is_Some (rs !! tn.1) →
  foldl (commit_node get_connection cn) rs l !! tn.1 ≫= (.!! host tn.2) = Some nm.
Proof.
  induction l as [|x l IH]; intros rs Hin Hc Hb Hrs; [by apply elem_of_nil in Hin|].
  simpl. apply elem_of_cons in Hin as [<-|Hin].
  - apply (commit_nodes_keep cn l tn.1 (host tn.2) conn nm); [done..|].
    by apply (commit_node_sets cn rs tn conn nm).
  - apply IH; [done..|]. by apply commit_node_dom.
Qed.

(** Nothing is stored under a host that is not found. *)
Lemma commit_node_not_found cn rs tn t h :
  get_connection h = None →
  commit_node get_connection cn rs tn !! t ≫= (.!! h) = rs !! t ≫= (.!! h).
Proof.
  intros Hh. unfold commit_node.
  destruct (get_connection (host tn.2)) as [conn|] eqn:Hc; [|done].
  destruct (built cn conn) as [nm|e]; [|done].
  destruct (rs !! tn.1) as [d|] eqn:Hd; [|done].
  destruct (decide (tn.1 = t)) as [<-|Hne].
  - rewrite lookup_insert_eq, Hd. simpl. rewrite lookup_insert_ne; [done|].
    intros Heq. rewrite Heq in Hc. congruence.
  - by rewrite lookup_insert_ne.
Qed.

Lemma commit_nodes_not_found cn l t h : ∀ rs,
  get_connection h = None →
  foldl (commit_node get_connection cn) rs l !! t ≫= (.!! h) = rs !! t ≫= (.!! h).
Proof.
  induction l as [|tn l IH]; intros rs Hh; [done|].
  simpl. rewrite IH by done. by apply commit_node_not_found.
Qed.

Lemma commit_nodes_all_not_found cn l : ∀ rs,
  Forall (λ tn, get_connection (host tn.2) = None) l →
  foldl (commit_node get_connection cn) rs l = rs.
Proof.
  induction l as [|tn l IH]; intros rs Hl; [done|].
  apply Forall_cons in Hl as [Htn Hl]. simpl. rewrite IH by done.
  unfold commit_node. by rewrite Htn.
Qed.

(** ** Connections opened and closed *)

Lemma channels_closed_quiet o evs rest :
  Forall quiet evs → channels_closed o (evs ++ rest) = channels_closed o rest.
Proof.
  induction 1 as [|ev evs Hev _ IH]; [done|].
  simpl. destruct ev as [| | |h []]; done.
Qed.

Lemma root_calls_no_exit conn (l : list (string * Rules)) :
  Forall (λ op, op ≠ Exit) (l ≫= root_calls conn).
Proof.
  apply Forall_forall. intros op (entry & Hop & _)%list_elem_of_bind.
  unfold root_calls in Hop. apply elem_of_cons in Hop as [->|Hop]; [done|].
  destruct (path_tree conn _ _ _ _) as [tree|e]; [|by apply elem_of_nil in Hop].
  apply elem_of_app in Hop as [Hop|Hop].
  - unfold file_calls in Hop. by apply list_elem_of_fmap in Hop as (i & -> & _).
  - unfold dir_calls in Hop. apply list_elem_of_bind in Hop as (i & Hop & _).
    apply elem_of_cons in Hop as [->|Hop]; [done|].
    by apply list_elem_of_singleton in Hop as ->.
Qed.

Lemma collect_paths_no_exit conn :
  Forall (λ op, op ≠ Exit) (calls (collect_paths conn)).
Proof.
  destruct (collect_paths_calls conn) as [[k Hk] _].
  pose proof (root_calls_no_exit conn paths) as Hall.
  rewrite Hk in Hall. by apply Forall_app in Hall as [? _].
Qed.

Lemma build_events_quiet h conn : Forall quiet (build_events h conn).
Proof.
  unfold build_events. repeat (apply Forall_cons; split; [done|]).
  apply Forall_app. split; [|by repeat constructor].
  apply Forall_fmap. eapply Forall_impl; [apply collect_paths_no_exit|].
  by intros [].
Qed.

Lemma channels_closed_node tn rest :
  channels_closed None (node_events get_connection tn ++ rest) = channels_closed None rest.
Proof.
  unfold node_events. destruct (get_connection (host tn.2)) as [conn|]; [|done].
  unfold connected_events, connecting_events.
  rewrite <- !app_assoc. cbn [app channels_closed].
  rewrite (channels_closed_quiet _ _ _ (build_events_quiet _ conn)).
  cbn [app channels_closed]. by rewrite bool_decide_eq_true_2.
Qed.

Lemma channels_closed_nodes l rest :
  channels_closed None ((l ≫= node_events get_connection) ++ rest) = channels_closed None rest.
Proof.
  induction l as [|tn l IH]; [done|].
  by rewrite bind_cons, <- app_assoc, channels_closed_node.
Qed.

(** ** Runs of [collect] *)

(** A run along nodes the collector gets past. *)
Lemma collect_ok md :
  Forall (node_ok get_connection md) (flat_nodes (nodes md)) →
  collect get_connection md =
    if decide (failures get_connection (flat_nodes (nodes md)) = length (flat_nodes (nodes md)))
    then
      {| output := header :: (flat_nodes (nodes md) ≫= node_events get_connection) ++ [failed_line];
         outcome := Raise (RuntimeError all_failed_msg);
         store := {| nodes := nodes md;
                     roles := foldl (commit_node get_connection (nodes md)) (roles md)
                                (flat_nodes (nodes md)) |} |}
    else
      {| output := header :: (flat_nodes (nodes md) ≫= node_events get_connection) ++ [completed_line];
         outcome := Ok tt;
         store := {| nodes := nodes md;
                     roles := foldl (commit_node get_connection (nodes md)) (roles md)
                                (flat_nodes (nodes md)) |} |}.
Proof.
  intros Hok. rewrite collect_unfold. cbv zeta.
  rewrite (collect_each_ok md) by done.
  cbn [output outcome store total_nodes failed_nodes]. rewrite !Nat.add_0_l.
  by case_decide.
Qed.

Lemma flat_nodes_empty groups :
  Forall (λ group : string * list Node, group.2 = []) groups → flat_nodes groups = [].
Proof.
  unfold flat_nodes. induction 1 as [|g groups Hg _ IH]; [done|].
  by rewrite bind_cons, Hg, IH.
Qed.

Lemma node_ok_not_found md l :
  Forall (λ tn, get_connection (host tn.2) = None) l →
  Forall (node_ok get_connection md) l.
Proof.
  intros Hl. eapply Forall_impl; [done|].
  intros tn Htn. unfold node_ok. by rewrite Htn.
Qed.

Lemma collect_all_not_found md :
  Forall (λ tn, get_connection (host tn.2) = None) (flat_nodes (nodes md)) →
  collect get_connection md =
    {| output := header :: (flat_nodes (nodes md) ≫= node_events get_connection) ++ [failed_line];
       outcome := Raise (RuntimeError all_failed_msg);
       store := md |}.
Proof.
  intros Hall. rewrite collect_ok by (by apply node_ok_not_found).
  rewrite decide_True by (by apply failures_all).
  rewrite commit_nodes_all_not_found by done. by destruct md.
Qed.

(** C1 (as amended): where every node of the inventory is one the collector
    gets past (its host is not found, or its metadata is built to the end
    and there is a dict for its node type) and the host of at least one node
    is found, [collect] returns without raising and its last line reports
    completion; every node whose host was found has its metadata under
    [store[role][host]], and nothing is stored under a host that was not
    found: what the store had there before is what it has after. *)
Theorem collect_completes md :
  Forall (node_ok get_connection md) (flat_nodes (nodes md)) →
  (∃ tn, tn ∈ flat_nodes (nodes md) ∧ is_Some (get_connection (host tn.2))) →
  let r := collect get_connection md in
  outcome r = Ok tt ∧
  last (output r) = Some completed_line ∧
  (∀ tn conn, tn ∈ flat_nodes (nodes md) → get_connection (host tn.2) = Some conn →
     ∃ nm, built (nodes md) conn = Ok nm ∧ entry (store r) tn.1 (host tn.2) = Some nm) ∧
  (∀ t h, get_connection h = None → entry (store r) t h = entry md t h).
Proof.
  intros Hok (tn & Hin & Hfound). cbv zeta.
  rewrite collect_ok by done.
  rewrite decide_False by (pose proof (failures_lt _ _ Hin Hfound); lia).
  cbn [output outcome store]. split; [done|]. split.
  { by rewrite app_comm_cons, last_snoc. }
  split.
  - intros tn' conn Hin' Hc. unfold entry. cbn [roles].
    pose proof (proj1 (Forall_forall _ _) Hok tn' Hin') as Htn. unfold node_ok in Htn.
    rewrite Hc in Htn. destruct Htn as [Hb Hrole].
    destruct (built (nodes md) conn) as [nm|e] eqn:Hnm; [|done].
    exists nm. split; [done|]. by eapply commit_nodes_set.
  - intros t h Hh. unfold entry. cbn [roles]. by apply commit_nodes_not_found.
Qed.

(** C2: where the host of every node of the inventory is not found,
    [collect] raises the error it keeps for this case, after the line that
    says that the collection failed, and leaves the store as it was: a
    store without entries has none afterwards. Each node by itself only
    fails to connect, which the loop reports and goes past. *)
Theorem all_unreachable_raises md :
  flat_nodes (nodes md) ≠ [] →
  Forall (λ tn, get_connection (host tn.2) = None) (flat_nodes (nodes md)) →
  let r := collect get_connection md in
  outcome r = Raise (RuntimeError all_failed_msg) ∧
  output r =
    header :: (flat_nodes (nodes md) ≫= λ tn, not_found_events (host tn.2)) ++ [failed_line] ∧
  store r = md ∧
  ((∀ t h, entry md t h = None) → ∀ t h, entry (store r) t h = None).
Proof.
  intros _ Hall. cbv zeta. rewrite collect_all_not_found by done.
  cbn [output outcome store].
  split; [done|]. split; [|done]. do 2 f_equal.
  induction Hall as [|tn l Htn _ IH]; [done|].
  rewrite !bind_cons, IH. unfold node_events at 1. by rewrite Htn.
Qed.

(** C9: with an inventory without nodes, no node type or only node types
    without nodes, both counters stay at zero, so that [collect] writes the
    line that says that the collection failed and raises the same error as
    when no host is found; the line that reports completion is not
    written. *)
Theorem empty_inventory_raises md :
  Forall (λ group : string * list Node, group.2 = []) (nodes md) →
  let r := collect get_connection md in
  outcome r = Raise (RuntimeError all_failed_msg) ∧
  output r = [header; failed_line] ∧
  (completed_line ∉ output r) ∧
  store r = md.
Proof.
  intros Hempty%flat_nodes_empty. cbv zeta.
  rewrite collect_all_not_found by (by rewrite Hempty).
  rewrite Hempty. cbn [output outcome store mbind list_bind app].
  split; [done|]. split; [done|]. split; [|done].
  by intros [[=]|[[=]|?%elem_of_nil]%elem_of_cons]%elem_of_cons.
Qed.

(** The run up to a node that is found, after nodes the collector got
    past. *)
Lemma collect_each_split md pre tn post :
  Forall (node_ok get_connection md) pre →
  let md1 := {| nodes := nodes md;
                roles := foldl (commit_node get_connection (nodes md)) (roles md) pre |} in
  let cnt1 := {| total_nodes := 0 + length pre;
                 failed_nodes := 0 + failures get_connection pre |} in
  let r1 := collect_each get_connection (nodes md) cnt1 tn md1 in
  Collector.for_each (collect_each get_connection (nodes md)) (pre ++ tn :: post)
    {| total_nodes := 0; failed_nodes := 0 |} md =
  match outcome r1 with
  | Ok cnt2 =>
      let r2 := Collector.for_each (collect_each get_connection (nodes md)) post cnt2 (store r1) in
      {| output := (pre ≫= node_events get_connection) ++ output r1 ++ output r2;
         outcome := outcome r2;
         store := store r2 |}
  | Raise e =>
      {| output := (pre ≫= node_events get_connection) ++ output r1;
         outcome := Raise e;
         store := store r1 |}
  end.
Proof.
  intros Hpre. cbv zeta.
  rewrite collector_for_each_app.
  erewrite collector_bind_ok by (by rewrite (collect_each_ok md)).
  rewrite (collect_each_ok md) by done. cbn [output outcome store].
  rewrite collector_for_each_cons.
  destruct (outcome (collect_each _ _ _ tn _)) as [cnt2|e] eqn:Ho.
  - by rewrite (collector_bind_ok _ _ _ _ Ho).
  - by rewrite (collector_bind_raise _ _ _ _ Ho).
Qed.

(** C3 (as amended): a request that fails on a connection that was opened
    is not recovered by the collector. Where the nodes before it are nodes
    the collector got past, its exception leaves [collect]: the store holds
    what the nodes before it left and nothing of this node, the output ends
    within the events of its build, so that no later node is attempted and
    no last line written, and its connection is not closed. *)
Theorem build_failure_leaves_collect md pre tn post conn e :
  flat_nodes (nodes md) = pre ++ tn :: post →
  Forall (node_ok get_connection md) pre →
  get_connection (host tn.2) = Some conn →
  built (nodes md) conn = Raise e →
  let r := collect get_connection md in
  outcome r = Raise e ∧
  roles (store r) = foldl (commit_node get_connection (nodes md)) (roles md) pre ∧
  (∃ evs, output r = header :: (pre ≫= node_events get_connection) ++
                       connected_events (host tn.2) ++ evs ∧
          evs `prefix_of` build_events (host tn.2) conn) ∧
  channels_closed None (output r) = false.
Proof.
  intros Hflat Hpre Hc Hb. cbv zeta.
  rewrite collect_unfold. cbv zeta. rewrite Hflat, collect_each_split by done. cbv zeta.
  rewrite !collect_each_unfold.
  pose proof (collect_node_found (nodes md) tn.1
    {| total_nodes := 0 + length pre; failed_nodes := 0 + failures get_connection pre |}
    tn.2 {| nodes := nodes md;
            roles := foldl (commit_node get_connection (nodes md)) (roles md) pre |}
    conn Hc) as Hn.
  cbv zeta in Hn. rewrite Hb in Hn. destruct Hn as (Ho & Hs & evs & Hevs & Hprefix).
  rewrite Ho. cbn [output outcome store]. rewrite Hs, Hevs. cbn [roles].
  split; [done|]. split; [done|]. split; [by exists evs|].
  rewrite app_comm_cons. change (header :: ?l) with ([header] ++ l).
  rewrite <- app_assoc. cbn [app channels_closed header].
  rewrite channels_closed_nodes. unfold connected_events, connecting_events.
  rewrite <- !app_assoc. cbn [app channels_closed].
  destruct Hprefix as [k Hk].
  pose proof (build_events_quiet (host tn.2) conn) as Hq.
  rewrite Hk in Hq. apply Forall_app in Hq as [Hq _].
  rewrite <- (app_nil_r evs). by rewrite channels_closed_quiet.
Qed.


(** C10: the metadata of a node is stored as soon as it is built, before
    the next node is attempted: it is in the store of the loop that stops
    after this node. It is still there when [collect] ends, whatever the
    nodes after it do and whether [collect] returns or raises. *)
Theorem committed_entries_stay md pre tn post conn nm :
  flat_nodes (nodes md) = pre ++ tn :: post →
  Forall (node_ok get_connection md) pre →
  get_connection (host tn.2) = Some conn →
  built (nodes md) conn = Ok nm →
  is_Some (roles md !! tn.1) →
  entry (store (Collector.for_each (collect_each get_connection (nodes md)) (pre ++ [tn])
                  {| total_nodes := 0; failed_nodes := 0 |} md)) tn.1 (host tn.2) = Some nm ∧
  entry (store (collect get_connection md)) tn.1 (host tn.2) = Some nm.
Proof.
  intros Hflat Hpre Hc Hb Hrole.
  assert (Forall (node_ok get_connection md) (pre ++ [tn])) as Hok.
  { apply Forall_app. split; [done|]. apply Forall_singleton.
    unfold node_ok. rewrite Hc, Hb. done. }
  assert (entry (store (Collector.for_each (collect_each get_connection (nodes md)) (pre ++ [tn])
                  {| total_nodes := 0; failed_nodes := 0 |} md)) tn.1 (host tn.2) = Some nm) as Hnow.
  { rewrite (collect_each_ok md) by done. unfold entry. cbn [store roles].
    apply (commit_nodes_set (nodes md) (pre ++ [tn]) tn conn nm); [|done..].
    apply elem_of_app. right. by left. }
  split; [done|].
  assert (store (collect get_connection md) =
          store (Collector.for_each (collect_each get_connection (nodes md))
                   (flat_nodes (nodes md)) {| total_nodes := 0; failed_nodes := 0 |} md)) as ->.
  { rewrite collect_unfold. cbv zeta. destruct (outcome _); [|done]. by case_decide. }
  rewrite Hflat, (cons_middle tn pre post), app_assoc, collector_for_each_app.
  set (r1 := Collector.for_each _ (pre ++ [tn]) _ md) in *.
  assert (outcome r1 = Ok {| total_nodes := 0 + length (pre ++ [tn]);
                             failed_nodes := 0 + failures get_connection (pre ++ [tn]) |}) as Ho.
  { unfold r1. by rewrite (collect_each_ok md). }
  rewrite (collector_bind_ok _ _ _ _ Ho). cbn [store].
  apply (collector_for_each_store (collect_each get_connection (nodes md))
           (λ md', entry md' tn.1 (host tn.2) = Some nm)); [|done].
  intros acc x md' Hmd'. rewrite collect_each_store. unfold entry. cbn [roles].
  by apply (commit_node_keeps (nodes md) (roles md') x tn.1 (host tn.2) conn nm).
Qed.

End collect_lemmas.

(** ** The runs of the sample cluster *)

(** Two monitors, one of them not found: the run completes. *)
Lemma collect_completes_witness :
  let r := collect sample_connection two_mons in
  Forall (node_ok sample_connection two_mons) (flat_nodes (nodes two_mons)) ∧
  outcome r = Ok tt ∧
  last (output r) = Some completed_line ∧
  (∀ tn conn, tn ∈ flat_nodes (nodes two_mons) → sample_connection (host tn.2) = Some conn →
     ∃ nm, built (nodes two_mons) conn = Ok nm ∧ entry (store r) tn.1 (host tn.2) = Some nm) ∧
  (∀ t h, sample_connection h = None → entry (store r) t h = entry two_mons t h).
Proof.
  assert (Forall (node_ok sample_connection two_mons) (flat_nodes (nodes two_mons))) as Hok.
  { apply (bool_decide_unpack _). vm_compute. exact I. }
  split; [exact Hok|].
  apply (collect_completes sample_connection two_mons Hok).
  exists ("mons", {| host := "mon0" |}). split; [by left|]. by eexists.
Defined.

(** C1 (fails as stated): two OSD nodes whose hosts are both found; the
    metadata of the first is built to the end, the walker of the second
    fails, and [collect] raises the exception of that request. *)
Lemma collect_raises_after_a_built_node :
  let md := inventory [("osds", [{| host := "osd0" |}; {| host := "osd1" |}])] in
  flat_nodes (nodes md) ≠ [] ∧
  (∃ conn nm, sample_connection "osd0" = Some conn ∧ built (nodes md) conn = Ok nm) ∧
  outcome (collect sample_connection md) = Raise (RemoteCallError "path_tree: /etc/ceph").
Proof.
  split; [done|]. split.
  - eexists _, _. split; reflexivity.
  - vm_compute. reflexivity.
Qed.

(** Two monitors, neither of them found. *)
Lemma all_unreachable_raises_witness :
  let r := collect sample_connection lost_mons in
  flat_nodes (nodes lost_mons) ≠ [] ∧
  Forall (λ tn, sample_connection (host tn.2) = None) (flat_nodes (nodes lost_mons)) ∧
  outcome r = Raise (RuntimeError all_failed_msg) ∧
  output r =
    header :: (flat_nodes (nodes lost_mons) ≫= λ tn, not_found_events (host tn.2)) ++
    [failed_line] ∧
  store r = lost_mons ∧
  ((∀ t h, entry lost_mons t h = None) → ∀ t h, entry (store r) t h = None).
Proof.
  assert (flat_nodes (nodes lost_mons) ≠ []) as Hne by done.
  assert (Forall (λ tn, sample_connection (host tn.2) = None)
            (flat_nodes (nodes lost_mons))) as Hall.
  { apply (bool_decide_unpack _). vm_compute. exact I. }
  split; [exact Hne|]. split; [exact Hall|].
  exact (all_unreachable_raises sample_connection lost_mons Hne Hall).
Defined.

(** Two node types, both without nodes. *)
Lemma empty_inventory_raises_witness :
  let r := collect sample_connection no_nodes in
  Forall (λ group : string * list Node, group.2 = []) (nodes no_nodes) ∧
  outcome r = Raise (RuntimeError all_failed_msg) ∧
  output r = [header; failed_line] ∧
  (completed_line ∉ output r) ∧
  store r = no_nodes.
Proof.
  assert (Forall (λ group : string * list Node, group.2 = []) (nodes no_nodes)) as Hempty.
  { by repeat constructor. }
  split; [exact Hempty|].
  exact (empty_inventory_raises sample_connection no_nodes Hempty).
Defined.

(** The walker of [osd1] fails after [mon0] was collected and before
    [osd0] is attempted. *)
Lemma build_failure_leaves_collect_witness :
  let r := collect sample_connection broken_osd in
  let e := RemoteCallError "path_tree: /etc/ceph" in
  built (nodes broken_osd) broken_peer = Raise e ∧
  outcome r = Raise e ∧
  roles (store r) =
    foldl (commit_node sample_connection (nodes broken_osd)) (roles broken_osd)
      [("mons", {| host := "mon0" |})] ∧
  (∃ evs, output r = header :: ([("mons", {| host := "mon0" |})] ≫= node_events sample_connection) ++
                       connected_events "osd1" ++ evs ∧
          evs `prefix_of` build_events "osd1" broken_peer) ∧
  channels_closed None (output r) = false.
Proof.
  assert (built (nodes broken_osd) broken_peer = Raise (RemoteCallError "path_tree: /etc/ceph"))
    as Hb by reflexivity.
  assert (Forall (node_ok sample_connection broken_osd) [("mons", {| host := "mon0" |})]) as Hpre.
  { apply (bool_decide_unpack _). vm_compute. exact I. }
  split; [exact Hb|].
  exact (build_failure_leaves_collect sample_connection broken_osd
           [("mons", {| host := "mon0" |})] ("osds", {| host := "osd1" |})
           [("osds", {| host := "osd0" |})] broken_peer _ eq_refl Hpre eq_refl Hb).
Defined.

(** C3 (fails as stated): the walker of [osd1] fails once the connection is
    open. The exception is not recovered: it leaves [collect], and [osd0],
    the node after it, is never asked for. *)
Lemma build_failure_is_not_recovered :
  let r := collect sample_connection broken_osd in
  flat_nodes (nodes broken_osd) =
    [("mons", {| host := "mon0" |}); ("osds", {| host := "osd1" |});
     ("osds", {| host := "osd0" |})] ∧
  outcome r = Raise (RemoteCallError "path_tree: /etc/ceph") ∧
  connections (output r) = [("mon0", true); ("osd1", true)].
Proof. split; [done|]. split; vm_compute; reflexivity. Qed.



(** [collect] raises on [osd1]; what was stored for [mon0] before is still
    in the store. *)
Lemma committed_entries_stay_witness :
  let r := collect sample_connection broken_osd in
  ∃ nm,
    built (nodes broken_osd) sample_peer = Ok nm ∧
    outcome r = Raise (RemoteCallError "path_tree: /etc/ceph") ∧
    entry (store (Collector.for_each (collect_each sample_connection (nodes broken_osd))
                    ([] ++ [("mons", {| host := "mon0" |})])
                    {| total_nodes := 0; failed_nodes := 0 |} broken_osd)) "mons" "mon0" = Some nm ∧
    entry (store r) "mons" "mon0" = Some nm.
Proof.
  eexists. split; [reflexivity|]. split; [vm_compute; reflexivity|].
  apply (committed_entries_stay sample_connection broken_osd
           [] ("mons", {| host := "mon0" |})
           [("osds", {| host := "osd1" |}); ("osds", {| host := "osd0" |})]
           sample_peer _ eq_refl (Forall_nil_2 _) eq_refl eq_refl).
  by eexists.
Defined.

(** ** The lines of the collection phases *)

(** C8 (fails on the code): for a node that is collected to the end, the
    ['collecting'] lines name, in order, the paths (pending, then done), the
    network (pending, then done), the devices (pending) and then ['paths']
    three more times: the end of the device phase and the two ceph queries
    are written under the name of the path phase, and no line names the ceph
    phase. *)
Theorem phases_reported_as_paths :
  let r := collect sample_connection (inventory [("mons", [{| host := "mon0" |}])]) in
  outcome r = Ok tt ∧
  collecting_lines (output r) =
    [Col yellow "paths"; Col green "paths";
     Col yellow "network"; Col green "network";
     Col yellow "devices"; Col green "paths";
     Col green "paths"; Col green "paths"].
Proof. split; vm_compute; reflexivity. Qed.

(** * Further properties of [collect_paths] *)

Section collect_paths_more.

Variable conn : Conn.

(** ** What is recorded for a root *)

(** The files of a root after the loop over [tree['files']]: the stat record
    of each file of the list, and what was there before for other paths. *)
Lemma stat_files_loop_exact kw l : ∀ acc fm,
  answer (Remote.for_each (stat_files conn kw) l acc) = Ok fm →
  ∀ f, fm !! f =
    if decide (f ∈ l) then ok_value (stat_path conn f None None (get_contents kw))
    else acc !! f.
Proof.
  induction l as [|x l IH]; intros acc fm.
  - cbn. intros [= <-] f. rewrite decide_False; [done|]. apply not_elem_of_nil.
  - rewrite remote_for_each_cons.
    destruct (answer (stat_files conn kw acc x)) as [acc'|e] eqn:Hx;
      [|by rewrite (remote_bind_raise _ _ e Hx)].
    rewrite (remote_bind_ok _ _ acc' Hx). cbn [answer]. intros Hfm f.
    apply stat_files_answer in Hx as (r & Hr & ->).
    rewrite (IH _ _ Hfm f).
    destruct (decide (f ∈ l)) as [Hl|Hl].
    + rewrite decide_True; [done|]. by right.
    + destruct (decide (f = x)) as [->|Hne].
      * rewrite decide_True by (by left). by rewrite lookup_insert_eq, Hr.
      * rewrite decide_False by (by intros [?|?]%elem_of_cons).
        by rewrite lookup_insert_ne.
Qed.

Lemma stat_files_loop_all_ok kw l : ∀ acc fm,
  answer (Remote.for_each (stat_files conn kw) l acc) = Ok fm →
  Forall (λ f, is_Ok (stat_path conn f None None (get_contents kw))) l.
Proof.
  induction l as [|x l IH]; intros acc fm; [by constructor|].
  rewrite remote_for_each_cons.
  destruct (answer (stat_files conn kw acc x)) as [acc'|e] eqn:Hx;
    [|by rewrite (remote_bind_raise _ _ e Hx)].
  rewrite (remote_bind_ok _ _ acc' Hx). cbn [answer]. intros Hfm.
  apply stat_files_answer in Hx as (r & Hr & ->).
  constructor; [by rewrite Hr|]. by eapply IH.
Qed.

(** The directories of a root after the loop over [tree['dirs']]: under the
    root, the stat record of the last directory of the list; under any other
    directory of the list, its own stat record. *)
Lemma stat_dirs_loop_exact p l : ∀ acc dm,
  answer (Remote.for_each (stat_dirs conn p) l acc) = Ok dm →
  ∀ d, dm !! d =
    if decide (d = p) then
      match last l with
      | Some i => ok_value (stat_path conn i None None false)
      | None => acc !! p
      end
    else if decide (d ∈ l) then ok_value (stat_path conn d None None false)
    else acc !! d.
Proof.
  induction l as [|x l IH]; intros acc dm.
  - cbn. intros [= <-] d. case_decide as Hd; [by subst|].
    rewrite decide_False; [done|]. apply not_elem_of_nil.
  - rewrite remote_for_each_cons.
    destruct (answer (stat_dirs conn p acc x)) as [acc'|e] eqn:Hx;
      [|by rewrite (remote_bind_raise _ _ e Hx)].
    rewrite (remote_bind_ok _ _ acc' Hx). cbn [answer]. intros Hdm d.
    apply stat_dirs_answer in Hx as (r & Hr & ->).
    rewrite (IH _ _ Hdm d), last_cons.
    destruct (decide (d = p)) as [->|Hp].
    + destruct (last l) as [i|]; [done|]. by rewrite lookup_insert_eq, Hr.
    + rewrite lookup_insert_ne by done.
      destruct (decide (d ∈ l)) as [Hl|Hl].
      * rewrite decide_True; [done|]. by right.
      * destruct (decide (d = x)) as [->|Hne].
        -- rewrite decide_True by (by left). by rewrite lookup_insert_eq, Hr.
        -- rewrite decide_False by (by intros [?|?]%elem_of_cons).
           by rewrite lookup_insert_ne.
Qed.

Lemma stat_dirs_loop_all_ok p l : ∀ acc dm,
  answer (Remote.for_each (stat_dirs conn p) l acc) = Ok dm →
  Forall (λ i, is_Ok (stat_path conn i None None false)) l.
Proof.
  induction l as [|x l IH]; intros acc dm; [by constructor|].
  rewrite remote_for_each_cons.
  destruct (answer (stat_dirs conn p acc x)) as [acc'|e] eqn:Hx;
    [|by rewrite (remote_bind_raise _ _ e Hx)].
  rewrite (remote_bind_ok _ _ acc' Hx). cbn [answer]. intros Hdm.
  apply stat_dirs_answer in Hx as (r & Hr & ->).
  constructor; [by rewrite Hr|]. by eapply IH.
Qed.

Lemma ok_value_Some {A} (r : Result A) a : ok_value r = Some a ↔ r = Ok a.
Proof. destruct r; simpl; split; congruence. Qed.

Lemma is_Ok_value {A} (r : Result A) : is_Ok r → ∃ a, r = Ok a.
Proof. destruct r; [eauto|done]. Qed.

(** X1: when [collect_paths] returns, the path metadata has an entry for
    each of the three paths of interest and for nothing else. *)
Theorem collect_paths_keys pm :
  answer (collect_paths conn) = Ok pm →
  ∀ p, is_Some (pm !! p) ↔ p ∈ ["/etc/ceph"; "/var/lib/ceph"; "/var/run/ceph"].
Proof.
  intros Hpm p.
  destruct (collect_roots_answer conn paths paths_NoDup ∅ pm Hpm) as [Hin Hout].
  change ["/etc/ceph"; "/var/lib/ceph"; "/var/run/ceph"] with (paths.*1).
  split.
  - intros Hp. destruct (decide (p ∈ paths.*1)) as [|Hnot]; [done|].
    rewrite (Hout p Hnot), lookup_empty in Hp. by destruct Hp.
  - intros (entry & -> & Hentry)%list_elem_of_fmap.
    destruct (Hin entry Hentry) as (t & Ht & _). by exists t.
Qed.

(** X2: when [collect_paths] returns, the ['files'] of a root hold exactly
    the files the walker found under it, each with the record that
    [stat_path] answers for it under the capture rule of the root. *)
Theorem files_are_those_found pm entry t tree :
  answer (collect_paths conn) = Ok pm →
  entry ∈ paths →
  pm !! entry.1 = Some t →
  path_tree conn entry.1 (skip_dirs entry.2) (skip_files entry.2) (get_contents entry.2) = Ok tree →
  (∀ f r, files t !! f = Some r ↔
     f ∈ tree_files tree ∧ stat_path conn f None None (get_contents entry.2) = Ok r) ∧
  (∀ f, f ∈ tree_files tree → is_Some (files t !! f)).
Proof.
  intros Hpm Hentry Ht Htree.
  destruct (collect_paths_answer conn pm Hpm entry Hentry) as (t' & Ht' & tree' & Htree' & Hf & _).
  assert (t' = t) as -> by congruence. assert (tree' = tree) as -> by congruence.
  pose proof (stat_files_loop_exact _ _ _ _ Hf) as Hexact.
  pose proof (stat_files_loop_all_ok _ _ _ _ Hf) as Hall.
  split.
  - intros f r. rewrite Hexact. case_decide as Hin.
    + rewrite ok_value_Some. split; [done|by intros [_ ?]].
    + rewrite lookup_empty. split; [done|by intros [? _]].
  - intros f Hin. rewrite Hexact, decide_True by done.
    destruct (is_Ok_value _ (proj1 (Forall_forall _ _) Hall f Hin)) as [r ->]. by exists r.
Qed.

(** X3: when [collect_paths] returns, the ['dirs'] of a root hold, for each
    directory the walker found other than the root, the record that
    [stat_path] answers for it without capture; the entry under the root is
    the record of the last directory the walker found, and there is none
    when the walker found no directory. Nothing else is recorded. *)
Theorem dirs_are_those_found pm entry t tree :
  answer (collect_paths conn) = Ok pm →
  entry ∈ paths →
  pm !! entry.1 = Some t →
  path_tree conn entry.1 (skip_dirs entry.2) (skip_files entry.2) (get_contents entry.2) = Ok tree →
  (∀ d, dirs t !! d =
     if decide (d = entry.1) then
       last (tree_dirs tree) ≫= λ i, ok_value (stat_path conn i None None false)
     else if decide (d ∈ tree_dirs tree) then ok_value (stat_path conn d None None false)
     else None) ∧
  (∀ d, d ∈ tree_dirs tree → is_Some (dirs t !! d)) ∧
  (tree_dirs tree = [] → dirs t = ∅).
Proof.
  intros Hpm Hentry Ht Htree.
  destruct (collect_paths_answer conn pm Hpm entry Hentry) as (t' & Ht' & tree' & Htree' & _ & Hd).
  assert (t' = t) as -> by congruence. assert (tree' = tree) as -> by congruence.
  pose proof (stat_dirs_loop_exact _ _ _ _ Hd) as Hexact.
  pose proof (stat_dirs_loop_all_ok _ _ _ _ Hd) as Hall.
  assert (∀ i, i ∈ tree_dirs tree → ∃ r, stat_path conn i None None false = Ok r) as Hstat.
  { intros i Hi. apply is_Ok_value. by apply (proj1 (Forall_forall _ _) Hall). }
  split; [|split].
  - intros d. rewrite Hexact. case_decide; [|by case_decide].
    by destruct (last (tree_dirs tree)).
  - intros d Hin. rewrite Hexact. case_decide.
    + destruct (last (tree_dirs tree)) as [i|] eqn:Hlast.
      * destruct (Hstat i) as [r ->]; [|by exists r].
        apply last_Some in Hlast as [l' ->]. apply elem_of_app. right. by left.
      * apply last_None in Hlast. rewrite Hlast in Hin. by apply elem_of_nil in Hin.
    + rewrite decide_True by done. destruct (Hstat d Hin) as [r ->]. by exists r.
  - intros Hnil. apply map_eq. intros d. rewrite Hexact, Hnil, lookup_empty. cbn.
    case_decide; [done|]. rewrite decide_False; [done|]. apply not_elem_of_nil.
Qed.

End collect_paths_more.

(** ** The first request that fails *)

Section stops_at_failure.

Variable conn : Conn.

(** X4: [collect_paths] stops at the first request that fails. When it
    returns, every request it made has answered; when it raises, every
    request but the last has answered, the last one has failed, and what
    [collect_paths] raises is the exception of that request. *)
Theorem collect_paths_stops_at_failure :
  match answer (collect_paths conn) with
  | Ok _ => Forall (λ op, failure conn op = None) (calls (collect_paths conn))
  | Raise e =>
      ∃ cs op, calls (collect_paths conn) = cs ++ [op] ∧
        Forall (λ op, failure conn op = None) cs ∧ failure conn op = Some e
  end.
Proof.
  change (stops_at_failure conn (collect_paths conn)).
  unfold collect_paths. apply stops_for_each.
  intros pm entry. apply stops_collect_root.
Qed.

End stops_at_failure.

(** * Further properties of [collect] *)

(** ** Loops of the collector, however they end *)

Lemma collector_for_each_store_in {A B} (body : B → A → Collector B)
    (P : Metadata → Prop) l :
  (∀ acc x md, x ∈ l → P md → P (store (body acc x md))) →
  ∀ acc md, P md → P (store (Collector.for_each body l acc md)).
Proof.
  induction l as [|x l IH]; intros Hbody acc md Hmd; [done|].
  rewrite collector_for_each_cons.
  destruct (outcome (body acc x md)) as [b|e] eqn:Hx.
  - rewrite (collector_bind_ok _ _ _ b Hx). cbn [store]. apply IH.
    + intros acc' y md' Hy. apply Hbody. by right.
    + apply Hbody; [by left|done].
  - rewrite (collector_bind_raise _ _ _ e Hx). cbn [store]. apply Hbody; [by left|done].
Qed.

Lemma collector_for_each_output {A B} (body : B → A → Collector B)
    (P : Event → Prop) l :
  (∀ acc x md, x ∈ l → Forall P (output (body acc x md))) →
  ∀ acc md, Forall P (output (Collector.for_each body l acc md)).
Proof.
  induction l as [|x l IH]; intros Hbody acc md; [by constructor|].
  rewrite collector_for_each_cons.
  destruct (outcome (body acc x md)) as [b|e] eqn:Hx.
  - rewrite (collector_bind_ok _ _ _ b Hx). cbn [output]. apply Forall_app. split.
    + apply Hbody. by left.
    + apply IH. intros acc' y md' Hy. apply Hbody. by right.
  - rewrite (collector_bind_raise _ _ _ e Hx). cbn [output]. apply Hbody. by left.
Qed.

Lemma collector_for_each_omap {A B X} (body : B → A → Collector B)
    (φ : Event → option X) (g : A → list X) l :
  (∀ acc x md, omap φ (output (body acc x md)) = g x) →
  ∀ acc md,
    omap φ (output (Collector.for_each body l acc md)) `prefix_of` (l ≫= g) ∧
    (is_Ok (outcome (Collector.for_each body l acc md)) →
     omap φ (output (Collector.for_each body l acc md)) = l ≫= g).
Proof.
  intros Hbody. induction l as [|x l IH]; intros acc md; [done|].
  rewrite collector_for_each_cons, bind_cons.
  destruct (outcome (body acc x md)) as [b|e] eqn:Hx.
  - rewrite (collector_bind_ok _ _ _ b Hx). cbn [output outcome].
    rewrite omap_app, Hbody. destruct (IH b (store (body acc x md))) as [IH1 IH2].
    split; [by apply prefix_app|]. intros Hok. by rewrite IH2.
  - rewrite (collector_bind_raise _ _ _ e Hx). cbn [output outcome].
    rewrite Hbody. split; [by apply prefix_app_r|done].
Qed.

Section collect_more.

Variable get_connection : string → option Conn.

Implicit Types (cn : list (string * list Node)) (tn : string * Node).

Lemma collect_store md :
  store (collect get_connection md) =
  store (Collector.for_each (collect_each get_connection (nodes md))
           (flat_nodes (nodes md)) {| total_nodes := 0; failed_nodes := 0 |} md).
Proof.
  rewrite collect_unfold. cbv zeta. destruct (outcome _); [|done]. by case_decide.
Qed.

(** The output of [collect]: the first line, the events of the loop, and
    one of the two last lines when the loop has returned. *)
Lemma collect_output md :
  ∃ tl, output (collect get_connection md) =
          header :: output (Collector.for_each (collect_each get_connection (nodes md))
                              (flat_nodes (nodes md))
                              {| total_nodes := 0; failed_nodes := 0 |} md) ++ tl ∧
        (tl = [] ∨ tl = [failed_line] ∨ tl = [completed_line]).
Proof.
  rewrite collect_unfold. cbv zeta. destruct (outcome _).
  - case_decide; cbn [output]; eauto.
  - exists []. rewrite app_nil_r. eauto.
Qed.

(** ** What [collect] leaves of the store *)

Lemma commit_node_dom_eq cn rs tn :
  dom (commit_node get_connection cn rs tn) = dom rs.
Proof.
  unfold commit_node.
  destruct (get_connection (host tn.2)) as [conn|]; [|done].
  destruct (built cn conn) as [nm|e]; [|done].
  destruct (rs !! tn.1) as [d|] eqn:Hd; [|done].
  apply dom_insert_lookup_L. by rewrite Hd.
Qed.

(** X5: whatever the run, [collect] neither adds nor removes the dict of a
    node type: a node type without a dict in the store before the run has
    none after it, since storing a node of such a type raises. *)
Theorem collect_keeps_node_types md :
  dom (roles (store (collect get_connection md))) = dom (roles md).
Proof.
  rewrite collect_store.
  apply (collector_for_each_store (collect_each get_connection (nodes md))
           (λ md', dom (roles md') = dom (roles md))); [|done].
  intros acc x md' Hd. rewrite collect_each_store. cbn [roles].
  by rewrite commit_node_dom_eq.
Qed.

Lemma commit_node_is_Some cn rs tn t h :
  is_Some (rs !! t ≫= (.!! h)) →
  is_Some (commit_node get_connection cn rs tn !! t ≫= (.!! h)).
Proof.
  intros Hrs. unfold commit_node.
  destruct (get_connection (host tn.2)) as [conn|]; [|done].
  destruct (built cn conn) as [nm|e]; [|done].
  destruct (rs !! tn.1) as [d|] eqn:Hd; [|done].
  destruct (decide (tn.1 = t)) as [<-|Hne].
  - rewrite lookup_insert_eq. rewrite Hd in Hrs. cbn in *.
    apply lookup_insert_is_Some'. by right.
  - by rewrite lookup_insert_ne.
Qed.

Lemma commit_node_other cn rs tn t h :
  (tn.1, host tn.2) ≠ (t, h) →
  commit_node get_connection cn rs tn !! t ≫= (.!! h) = rs !! t ≫= (.!! h).
Proof.
  intros Hne. unfold commit_node.
  destruct (get_connection (host tn.2)) as [conn|]; [|done].
  destruct (built cn conn) as [nm|e]; [|done].
  destruct (rs !! tn.1) as [d|] eqn:Hd; [|done].
  destruct (decide (tn.1 = t)) as [<-|Ht].
  - rewrite lookup_insert_eq, Hd. cbn. rewrite lookup_insert_ne; [done|]. congruence.
  - by rewrite lookup_insert_ne.
Qed.

(** X6: whatever the run, [collect] removes no entry of the store, and it
    leaves alone what is stored under a node type and host that are not
    those of a node of the inventory. *)
Theorem collect_keeps_entries md :
  (∀ t h, is_Some (entry md t h) → is_Some (entry (store (collect get_connection md)) t h)) ∧
  (∀ t h, (∀ tn, tn ∈ flat_nodes (nodes md) → (tn.1, host tn.2) ≠ (t, h)) →
     entry (store (collect get_connection md)) t h = entry md t h).
Proof.
  rewrite collect_store. split.
  - intros t h Hth.
    apply (collector_for_each_store (collect_each get_connection (nodes md))
             (λ md', is_Some (entry md' t h))); [|done].
    intros acc x md' Hmd'. rewrite collect_each_store. by apply commit_node_is_Some.
  - intros t h Hnot.
    apply (collector_for_each_store_in (collect_each get_connection (nodes md))
             (λ md', entry md' t h = entry md t h)); [|done].
    intros acc x md' Hx Hmd'. rewrite collect_each_store. unfold entry in *. cbn [roles].
    rewrite commit_node_other; [done|]. by apply Hnot.
Qed.

Lemma built_Ok cn conn nm :
  built cn conn = Ok nm →
  answer (collect_paths conn) = Ok (nm_paths nm) ∧
  ceph_version conn = Ok (version (nm_ceph nm)) ∧
  ceph_is_installed conn = Ok (installed (nm_ceph nm)) ∧
  nm_network nm = ∅ ∧ nm_devices nm = ∅.
Proof.
  unfold built.
  destruct (import_module conn); [|done].
  destruct (answer (collect_paths conn)); [|done].
  destruct (ceph_version conn); [|done].
  destruct (ceph_is_installed conn); [|done].
  by intros [= <-].
Qed.

(** X7: whatever the run, an entry of the store afterwards is either the
    entry that was there before or the metadata of a node whose host was
    found: its paths are what [collect_paths] returned on the connection to
    that host, its ceph version and installed flag are what the two queries
    answered, and its network and devices are empty. *)
Theorem collect_stores_what_was_built md t h nm :
  entry (store (collect get_connection md)) t h = Some nm →
  entry md t h = Some nm ∨
  ∃ conn, get_connection h = Some conn ∧
    answer (collect_paths conn) = Ok (nm_paths nm) ∧
    ceph_version conn = Ok (version (nm_ceph nm)) ∧
    ceph_is_installed conn = Ok (installed (nm_ceph nm)) ∧
    nm_network nm = ∅ ∧ nm_devices nm = ∅.
Proof.
  rewrite collect_store.
  apply (collector_for_each_store (collect_each get_connection (nodes md))
    (λ md', entry md' t h = Some nm →
       entry md t h = Some nm ∨
       ∃ conn, get_connection h = Some conn ∧
         answer (collect_paths conn) = Ok (nm_paths nm) ∧
         ceph_version conn = Ok (version (nm_ceph nm)) ∧
         ceph_is_installed conn = Ok (installed (nm_ceph nm)) ∧
         nm_network nm = ∅ ∧ nm_devices nm = ∅)); [|by left].
  intros acc x md' Hmd'. rewrite collect_each_store. unfold entry in *. cbn [roles].
  unfold commit_node.
  destruct (get_connection (host x.2)) as [conn|] eqn:Hc; [|done].
  destruct (built (nodes md) conn) as [nm'|e] eqn:Hb; [|done].
  destruct (roles md' !! x.1) as [d|] eqn:Hd; [|done].
  destruct (decide (x.1 = t)) as [<-|Ht]; [|by rewrite lookup_insert_ne].
  rewrite lookup_insert_eq. cbn. rewrite Hd in Hmd'. cbn in Hmd'.
  destruct (decide (host x.2 = h)) as [<-|Hh]; [|by rewrite lookup_insert_ne].
  rewrite lookup_insert_eq. intros [= <-]. right. exists conn. split; [done|].
  by eapply built_Ok.
Qed.

(** ** The node at which a run is cut short *)







(** ** The events of a run, however it ends *)

(** The events of a node whose host is found are the first of those of a
    node that is collected to the end. *)
Lemma collect_node_output_prefix cn t cnt n md conn :
  get_connection (host n) = Some conn →
  ∃ evs, output (collect_node get_connection cn t cnt n md) = connected_events (host n) ++ evs ∧
         evs `prefix_of` build_events (host n) conn ++ [RemoteCall (host n) Exit].
Proof.
  intros Hc. pose proof (collect_node_found get_connection cn t cnt n md conn Hc) as Hn.
  cbv zeta in Hn. destruct (built cn conn) as [nm|e].
  - destruct (roles md !! t) as [d|]; rewrite Hn; cbn [output].
    + by eexists.
    + eexists. split; [done|]. by apply prefix_app_r.
  - destruct Hn as (_ & _ & evs & -> & Hevs). exists evs. split; [done|].
    by apply prefix_app_r.
Qed.

Lemma Forall_prefix {X} (P : X → Prop) (l k : list X) :
  l `prefix_of` k → Forall P k → Forall P l.
Proof. intros [k' ->] Hk. by apply Forall_app in Hk as [? _]. Qed.

Lemma build_events_host h conn :
  Forall (λ ev, ∀ h' op, ev = RemoteCall h' op → h' = h)
    (build_events h conn ++ [RemoteCall h Exit]).
Proof.
  apply Forall_app. split; [|by repeat constructor; intros ?? [= <-]].
  unfold build_events. repeat (apply Forall_cons; split; [by intros ?? [=]|]).
  apply Forall_app. split.
  - apply Forall_fmap, Forall_true. by intros op h' op' [= <-].
  - repeat (apply Forall_cons; split; [by intros ?? [=]|]). constructor.
Qed.

(** X10: whatever the run, no request is made to a host that
    [get_connection] does not find. *)
Theorem no_request_without_connection md h op :
  get_connection h = None →
  RemoteCall h op ∉ output (collect get_connection md).
Proof.
  intros Hh. destruct (collect_output md) as (tl & -> & Htl).
  intros [[=]|[Hin|Hin]%elem_of_app]%elem_of_cons.
  - assert (Forall (λ ev, ev ≠ RemoteCall h op)
              (output (Collector.for_each (collect_each get_connection (nodes md))
                         (flat_nodes (nodes md))
                         {| total_nodes := 0; failed_nodes := 0 |} md))) as Hall.
    { apply collector_for_each_output. intros acc x md' _. rewrite collect_each_unfold.
      destruct (get_connection (host x.2)) as [conn|] eqn:Hc.
      + destruct (collect_node_output_prefix (nodes md) x.1 acc x.2 md' conn Hc)
          as (evs & -> & Hevs).
        apply Forall_app. split.
        * by repeat constructor.
        * eapply Forall_impl; [exact (Forall_prefix _ _ _ Hevs (build_events_host _ conn))|].
          intros ev Hev ->. specialize (Hev h op eq_refl). congruence.
      + rewrite (collect_node_not_found _ _ _ _ _ _ Hc). cbn [output].
        by repeat constructor. }
    by apply (proj1 (Forall_forall _ _) Hall _ Hin).
  - destruct Htl as [-> | [-> | ->]].
    + by apply elem_of_nil in Hin.
    + by apply list_elem_of_singleton in Hin.
    + by apply list_elem_of_singleton in Hin.
Qed.

Lemma connections_quiet evs : Forall quiet evs → connections evs = [].
Proof.
  induction 1 as [|ev evs Hev _ IH]; [done|].
  unfold connections in *. cbn. rewrite IH. by destruct ev.
Qed.

Lemma connections_prefix_nil evs full :
  evs `prefix_of` full → connections full = [] → connections evs = [].
Proof.
  intros [k ->]. unfold connections. rewrite omap_app.
  by intros [? _]%app_eq_nil.
Qed.

(** Each node makes one call of [get_connection], however it ends. *)
Lemma collect_each_connections cn cnt tn md :
  connections (output (collect_each get_connection cn cnt tn md)) =
    [(host tn.2, bool_decide (is_Some (get_connection (host tn.2))))].
Proof.
  rewrite collect_each_unfold.
  destruct (get_connection (host tn.2)) as [conn|] eqn:Hc.
  - destruct (collect_node_output_prefix cn tn.1 cnt tn.2 md conn Hc) as (evs & -> & Hevs).
    unfold connections. rewrite omap_app. fold (connections evs).
    rewrite (connections_prefix_nil _ _ Hevs).
    + rewrite bool_decide_eq_true_2 by (by eexists). done.
    + unfold connections. rewrite omap_app. fold (connections (build_events (host tn.2) conn)).
      by rewrite (connections_quiet _ (build_events_quiet _ conn)).
  - rewrite (collect_node_not_found _ _ _ _ _ _ Hc). cbn [output].
    rewrite bool_decide_eq_false_2; [done|]. by intros [? [=]].
Qed.

(** X11: whatever the run, [get_connection] is called for the nodes in the
    order of the inventory, once for each node up to the one at which the
    run ends; when [collect] returns, it has been called once for every
    node. *)
Theorem connections_follow_inventory md :
  let asked :=
    (λ tn : string * Node, (host tn.2, bool_decide (is_Some (get_connection (host tn.2)))))
      <$> flat_nodes (nodes md) in
  connections (output (collect get_connection md)) `prefix_of` asked ∧
  (outcome (collect get_connection md) = Ok tt →
   connections (output (collect get_connection md)) = asked).
Proof.
  cbv zeta. rewrite <- bind_singleton_fmap.
  destruct (collector_for_each_omap (collect_each get_connection (nodes md))
    (λ ev, match ev with GetConnection h found => Some (h, found) | _ => None end)
    (λ tn, [(host tn.2, bool_decide (is_Some (get_connection (host tn.2))))])
    (flat_nodes (nodes md))
    (λ acc x md', collect_each_connections (nodes md) acc x md')
    {| total_nodes := 0; failed_nodes := 0 |} md) as [Hpre Heq].
  assert (connections (output (collect get_connection md)) =
          connections (output (Collector.for_each (collect_each get_connection (nodes md))
            (flat_nodes (nodes md)) {| total_nodes := 0; failed_nodes := 0 |} md))) as ->.
  { destruct (collect_output md) as (tl & -> & Htl). unfold connections.
    cbn [omap list_omap header]. rewrite omap_app.
    destruct Htl as [-> | [-> | ->]]; cbn; by rewrite app_nil_r. }
  split; [done|]. intros Hret. apply Heq.
  rewrite collect_unfold in Hret. cbv zeta in Hret. by destruct (outcome _).
Qed.

End collect_more.

(** ** The sample cluster again *)

(** The healthy peer: [collect_paths] returns. *)
Lemma collect_paths_keys_witness :
  ∃ pm, answer (collect_paths sample_peer) = Ok pm ∧
    ∀ p, is_Some (pm !! p) ↔ p ∈ ["/etc/ceph"; "/var/lib/ceph"; "/var/run/ceph"].
Proof.
  destruct (answer (collect_paths sample_peer)) as [pm|e] eqn:Hpm; [|by vm_compute in Hpm].
  exists pm. split; [reflexivity|]. exact (collect_paths_keys sample_peer pm Hpm).
Defined.

(** The healthy peer, under [/etc/ceph]: two files and one directory. *)
Lemma files_are_those_found_witness :
  let found := ["/etc/ceph/ceph.conf"; "/etc/ceph/ceph.client.admin.keyring"] in
  ∃ pm t, answer (collect_paths sample_peer) = Ok pm ∧ pm !! "/etc/ceph" = Some t ∧
    (∀ f r, files t !! f = Some r ↔
       f ∈ found ∧ stat_path sample_peer f None None true = Ok r) ∧
    (∀ f, f ∈ found → is_Some (files t !! f)).
Proof.
  destruct (answer (collect_paths sample_peer)) as [pm|e] eqn:Hpm; [|by vm_compute in Hpm].
  destruct (collect_paths_answer sample_peer pm Hpm
              ("/etc/ceph", {| get_contents := true; skip_files := None; skip_dirs := None |}))
    as (t & Ht & _); [by left|].
  exists pm, t. split; [reflexivity|]. split; [exact Ht|].
  apply (files_are_those_found sample_peer pm
           ("/etc/ceph", {| get_contents := true; skip_files := None; skip_dirs := None |}) t
           {| tree_files := ["/etc/ceph/ceph.conf"; "/etc/ceph/ceph.client.admin.keyring"];
              tree_dirs := ["/etc/ceph/ceph.d"] |} Hpm); [by left|exact Ht|reflexivity].
Defined.

Lemma dirs_are_those_found_witness :
  let found := ["/etc/ceph/ceph.d"] in
  ∃ pm t, answer (collect_paths sample_peer) = Ok pm ∧ pm !! "/etc/ceph" = Some t ∧
    (∀ d, dirs t !! d =
       if decide (d = "/etc/ceph") then
         last found ≫= λ i, ok_value (stat_path sample_peer i None None false)
       else if decide (d ∈ found) then ok_value (stat_path sample_peer d None None false)
       else None) ∧
    (∀ d, d ∈ found → is_Some (dirs t !! d)) ∧
    (found = [] → dirs t = ∅).
Proof.
  destruct (answer (collect_paths sample_peer)) as [pm|e] eqn:Hpm; [|by vm_compute in Hpm].
  destruct (collect_paths_answer sample_peer pm Hpm
              ("/etc/ceph", {| get_contents := true; skip_files := None; skip_dirs := None |}))
    as (t & Ht & _); [by left|].
  exists pm, t. split; [reflexivity|]. split; [exact Ht|].
  apply (dirs_are_those_found sample_peer pm
           ("/etc/ceph", {| get_contents := true; skip_files := None; skip_dirs := None |}) t
           {| tree_files := ["/etc/ceph/ceph.conf"; "/etc/ceph/ceph.client.admin.keyring"];
              tree_dirs := ["/etc/ceph/ceph.d"] |} Hpm); [by left|exact Ht|reflexivity].
Defined.

(** Two monitors, one of them not found: what is stored for [mon0]. *)
Lemma collect_stores_what_was_built_witness :
  ∃ nm, entry (store (collect sample_connection two_mons)) "mons" "mon0" = Some nm ∧
    (entry two_mons "mons" "mon0" = Some nm ∨
     ∃ conn, sample_connection "mon0" = Some conn ∧
       answer (collect_paths conn) = Ok (nm_paths nm) ∧
       ceph_version conn = Ok (version (nm_ceph nm)) ∧
       ceph_is_installed conn = Ok (installed (nm_ceph nm)) ∧
       nm_network nm = ∅ ∧ nm_devices nm = ∅).
Proof.
  destruct (entry (store (collect sample_connection two_mons)) "mons" "mon0")
    as [nm|] eqn:Hnm; [|by vm_compute in Hnm].
  exists nm. split; [reflexivity|].
  exact (collect_stores_what_was_built sample_connection two_mons "mons" "mon0" nm Hnm).
Defined.


(** Two monitors: [mon1] is not found and is sent no request. *)
Lemma no_request_without_connection_witness :
  sample_connection "mon1" = None ∧
  RemoteCall "mon1" ImportModule ∉ output (collect sample_connection two_mons).
Proof.
  split; [reflexivity|].
  exact (no_request_without_connection sample_connection two_mons "mon1" ImportModule eq_refl).
Defined.

(** ** The last line, and the connections that are closed *)


Lemma not_elem_of_Forall {X} (x : X) (l : list X) :
  Forall (λ y, y ≠ x) l → x ∉ l.
Proof. intros Hall Hin. by apply (proj1 (Forall_forall _ _) Hall x Hin). Qed.

Section collect_lines.

Variable get_connection : string → option Conn.

Lemma completed_line_not_in_node cn cnt tn md :
  completed_line ∉ output (collect_each get_connection cn cnt tn md).
Proof.
  rewrite collect_each_unfold.
  destruct (get_connection (host tn.2)) as [conn|] eqn:Hc.
  - destruct (collect_node_output_prefix get_connection cn tn.1 cnt tn.2 md conn Hc)
      as (evs & -> & Hevs).
    assert (Forall (λ ev, ev ≠ completed_line)
              (connected_events (host tn.2) ++
               build_events (host tn.2) conn ++ [RemoteCall (host tn.2) Exit])) as Hall.
    { unfold connected_events, connecting_events, build_events.
      repeat (first [apply Forall_cons; split; [by intros [=]|]
                    |apply Forall_app; split
                    |apply Forall_nil_2]).
      apply Forall_fmap, Forall_true. by intros op [=]. }
    apply Forall_app in Hall as [Hall1 Hall2].
    apply not_elem_of_Forall, Forall_app. split; [done|].
    by apply (Forall_prefix _ _ _ Hevs).
  - rewrite (collect_node_not_found _ _ _ _ _ _ Hc). cbn [output].
    unfold not_found_events, connecting_events. apply not_elem_of_Forall. cbn [app].
    repeat (first [apply Forall_cons; split; [by intros [=]|] | apply Forall_nil_2]).
Qed.

(** X12: the line that reports completion is written exactly when [collect]
    returns; a run that raises never writes it. *)
Theorem completed_line_iff_returns md :
  completed_line ∈ output (collect get_connection md) ↔
  outcome (collect get_connection md) = Ok tt.
Proof.
  assert (completed_line ∉ output (Collector.for_each (collect_each get_connection (nodes md))
            (flat_nodes (nodes md)) {| total_nodes := 0; failed_nodes := 0 |} md)) as Hloop.
  { apply not_elem_of_Forall, collector_for_each_output. intros acc x md' _.
    apply Forall_forall. intros ev Hin ->.
    by apply (completed_line_not_in_node (nodes md) acc x md'). }
  rewrite collect_unfold. cbv zeta.
  destruct (outcome (Collector.for_each _ _ _ md)) as [cnt|e].
  - case_decide; cbn [output outcome].
    + split; [|done]. intros [[=]|[Hin|[[=]|Hin%elem_of_nil]%elem_of_cons]%elem_of_app]%elem_of_cons;
        done.
    + split; [done|]. intros _. right. apply elem_of_app. right. by left.
  - cbn [output outcome]. split; [|done].
    by intros [[=]|Hin]%elem_of_cons.
Qed.



End collect_lines.

